(** * VariadicTable: a shallow embedding of [include/VariadicTable.h]

    The C++ class template [VariadicTable<Ts...>] collects rows of type
    [std::tuple<Ts...>] and pretty-prints them as a bordered text table.
    This development models the class member by member: the machine integer
    conversions the code performs, the part of [std::ostream] formatting it
    relies on ([setw], [left], [right], padded insertion), the template
    recursion over the tuple, and the three public operations (constructor,
    [addRow], [print]). *)

From Stdlib Require Import ZArith Ascii String DecimalString Lia.
From stdpp Require Import base tactics option list strings.

Local Open Scope Z_scope.

(** ** Machine integers

    [unsigned int] is 32 bits wide and [size_t] 64 bits wide (LP64).  Values
    are integers of [Z]; every conversion the code performs is written out. *)

Definition UINT_MAX : Z := 4294967295.
Definition INT_MAX : Z := 2147483647.

(** Conversion to [unsigned int]. *)
Definition to_uint (z : Z) : Z := z mod 4294967296.

(** Conversion to [size_t]. *)
Definition to_size_t (z : Z) : Z := z mod 18446744073709551616.

(** Conversion of an [unsigned int] to [int] (the argument of [std::setw]). *)
Definition to_int (z : Z) : Z :=
  let u := to_uint z in if u <=? INT_MAX then u else u - 4294967296.

(** ** Strings and vectors

    A [std::string] is its sequence of characters.  A [std::vector] is a
    list; [v !!! i] reads [v[i]] and [<[i:=x]> v] writes it.  Indexing past
    the end is undefined in C++; the class invariant [table_inv] below keeps
    every index the code uses in range. *)

Abbreviation std_string := (list ascii).

Definition lit (s : string) : std_string := list_ascii_of_string s.

(** [s.size()], a [size_t]. *)
Definition size (s : std_string) : Z := Z.of_nat (length s).

(** [std::string(n, c)]. *)
Definition string_fill (n : Z) (c : ascii) : std_string := replicate (Z.to_nat n) c.

Definition dash : ascii := "-"%char.
Definition space : ascii := " "%char.
Definition bar : std_string := ["|"%char].
Definition newline : std_string := ["010"%char].

(** ** The output stream

    The stream state the code depends on: the characters written so far, the
    pending field width ([ios_base::width]), the adjustment flag and the fill
    character. *)

Inductive adjustfield := adjust_left | adjust_right | adjust_internal.

Record ostream := {
  os_chars : std_string;
  os_width : Z;
  os_adjust : adjustfield;
  os_fill : ascii
}.

(** [stream << std::setw(n)] *)
Definition setw (n : Z) (s : ostream) : ostream :=
  {| os_chars := os_chars s; os_width := n;
     os_adjust := os_adjust s; os_fill := os_fill s |}.

(** [stream << std::left] and [stream << std::right] *)
Definition std_left (s : ostream) : ostream :=
  {| os_chars := os_chars s; os_width := os_width s;
     os_adjust := adjust_left; os_fill := os_fill s |}.

Definition std_right (s : ostream) : ostream :=
  {| os_chars := os_chars s; os_width := os_width s;
     os_adjust := adjust_right; os_fill := os_fill s |}.

(** The field a formatted inserter writes for [text]: when the pending width
    exceeds the text's length the difference is made up with fill characters,
    after the text under [left] and before it otherwise; a text at least as
    long as the width is written whole. *)
Definition field (w : Z) (adj : adjustfield) (fill : ascii) (text : std_string)
  : std_string :=
  let padding := string_fill (w - size text) fill in
  match adj with
  | adjust_left => text ++ padding
  | _ => padding ++ text
  end.

(** [stream << text]: a formatted insertion; it resets the width to 0. *)
Definition put (text : std_string) (s : ostream) : ostream :=
  {| os_chars := os_chars s ++ field (os_width s) (os_adjust s) (os_fill s) text;
     os_width := 0;
     os_adjust := os_adjust s; os_fill := os_fill s |}.

Notation "s <<< f" := (f s) (at level 50, left associativity, only parsing).

(** ** Column types

    What the template uses of a column type [T]: whether it has a [size()]
    member (the SFINAE probe of [sizeOfData]), whether it is arithmetic
    ([std::is_arithmetic], read by [justify]), and the characters its
    [operator<<] inserts before padding. *)

Record ColumnType := {
  ctype : Type;
  size_member : option (ctype -> Z);
  is_arithmetic : bool;
  inserted : ctype -> std_string
}.

(** [std::string]. *)
Definition string_col : ColumnType :=
  {| ctype := std_string; size_member := Some size;
     is_arithmetic := false; inserted := fun s => s |}.

(** [int], written in decimal. *)
Definition int_col : ColumnType :=
  {| ctype := Z; size_member := None; is_arithmetic := true;
     inserted := fun z => lit (NilZero.string_of_int (Z.to_int z)) |}.

(** [const char *]: no [size()] member and not arithmetic. *)
Definition c_str_col : ColumnType :=
  {| ctype := std_string; size_member := None;
     is_arithmetic := false; inserted := fun s => s |}.

(** [std::tuple<Ts...>] *)
Fixpoint DataTuple (Ts : list ColumnType) : Type :=
  match Ts with
  | [] => unit
  | T :: Ts' => (ctype T * DataTuple Ts')%type
  end.

(** ** The table *)

Record VariadicTable (Ts : list ColumnType) := {
  _headers : list std_string;
  _num_columns : Z;
  _static_column_size : Z;
  _data : list (DataTuple Ts);
  _column_sizes : list Z
}.

Arguments _headers {Ts} _.
Arguments _num_columns {Ts} _.
Arguments _static_column_size {Ts} _.
Arguments _data {Ts} _.
Arguments _column_sizes {Ts} _.

(** Outcome of the constructor: a table, or [std::abort()] after the message
    has been written to [std::cout]. *)
Inductive construction (Ts : list ColumnType) :=
| Constructed (t : VariadicTable Ts)
| Aborted (message : std_string).

Arguments Constructed {Ts} _.
Arguments Aborted {Ts} _.

Definition VariadicTable_ctor (Ts : list ColumnType)
    (headers : list std_string) (static_column_size : Z) : construction Ts :=
  let num_columns := to_uint (Z.of_nat (length Ts)) in
  if negb (Z.of_nat (length headers) =? num_columns)
  then Aborted (lit "Number of headers must match number of columns!")
  else Constructed
         {| _headers := headers; _num_columns := num_columns;
            _static_column_size := static_column_size;
            _data := []; _column_sizes := [] |}.

Definition addRow {Ts} (data : DataTuple Ts) (t : VariadicTable Ts)
  : VariadicTable Ts :=
  {| _headers := _headers t; _num_columns := _num_columns t;
     _static_column_size := _static_column_size t;
     _data := _data t ++ [data]; _column_sizes := _column_sizes t |}.

(** ** Sizing *)

(** The two overloads of [sizeOfData]: [data.size()] when [T] has the
    member, [_static_column_size] otherwise; both return a [size_t]. *)
Definition sizeOfData (T : ColumnType) (static_column_size : Z) (data : ctype T) : Z :=
  match size_member T with
  | Some size_of => to_size_t (size_of data)
  | None => to_size_t static_column_size
  end.

(** [size_each(t, sizes, integral_constant<size_t, I>)]: the recursion over
    the tuple positions from [I] on; [t] is the part of the tuple not yet
    visited. *)
Fixpoint size_each_at (Ts : list ColumnType) (static_column_size : Z) (I : nat)
  : DataTuple Ts -> list Z -> list Z :=
  match Ts with
  | [] => fun _ sizes => sizes
  | T :: Ts' => fun t sizes =>
      let sizes := <[I := to_uint (sizeOfData T static_column_size (fst t))]> sizes in
      size_each_at Ts' static_column_size (S I) (snd t) sizes
  end.

Definition size_each {Ts} (static_column_size : Z) (t : DataTuple Ts)
    (sizes : list Z) : list Z :=
  size_each_at Ts static_column_size 0 t sizes.

(** The columns [0 .. n-1] a [for (unsigned int i = 0; i < n; i++)] visits. *)
Definition columns (n : Z) : list nat := seq 0 (Z.to_nat n).

Definition size_columns {Ts} (t : VariadicTable Ts) : VariadicTable Ts :=
  let n := _num_columns t in
  let cs := resize (Z.to_nat n) 0 (_column_sizes t) in
  let column_sizes := replicate (Z.to_nat n) 0 in
  let cs := foldl (fun cs i => <[i := to_uint (size (_headers t !!! i))]> cs)
                  cs (columns n) in
  let cs :=
    fst (foldl (fun '(cs, column_sizes) row =>
                  let column_sizes := size_each (_static_column_size t) row column_sizes in
                  (foldl (fun cs i => <[i := Z.max (cs !!! i) (column_sizes !!! i)]> cs)
                         cs (columns n),
                   column_sizes))
               (cs, column_sizes) (_data t)) in
  {| _headers := _headers t; _num_columns := _num_columns t;
     _static_column_size := _static_column_size t;
     _data := _data t; _column_sizes := cs |}.

Arguments size_columns : simpl never.

(** ** Printing *)

(** The two overloads of [justify]. *)
Definition justify (T : ColumnType) : ostream -> ostream :=
  if is_arithmetic T then std_right else std_left.

(** [print_each(t, stream, integral_constant<size_t, I>)] *)
Fixpoint print_each_at (Ts : list ColumnType) (column_sizes : list Z) (I : nat)
  : DataTuple Ts -> ostream -> ostream :=
  match Ts with
  | [] => fun _ stream => stream
  | T :: Ts' => fun t stream =>
      let val := fst t in
      let stream :=
        stream <<< setw (to_int (column_sizes !!! I)) <<< justify T
               <<< put (inserted T val) <<< put bar in
      print_each_at Ts' column_sizes (S I) (snd t) stream
  end.

Definition print_each {Ts} (column_sizes : list Z) (t : DataTuple Ts)
    (stream : ostream) : ostream :=
  print_each_at Ts column_sizes 0 t stream.

(** The value of [total_width] once the loop over [_column_sizes] is done. *)
Definition total_width {Ts} (t : VariadicTable Ts) : Z :=
  foldl (fun total_width col_size => to_uint (total_width + col_size))
        (to_uint (_num_columns t + 1)) (_column_sizes t).

(** The value of [half] for column [i]: [_column_sizes[i] / 2] less
    [_headers[i].size() / 2], the subtraction done in [size_t] and stored
    back into an [unsigned int]. *)
Definition half {Ts} (t : VariadicTable Ts) (i : nat) : Z :=
  let half := to_uint (_column_sizes t !!! i / 2) in
  to_uint (to_size_t (half - size (_headers t !!! i) / 2)).

Definition print_headers {Ts} (t : VariadicTable Ts) (stream : ostream) : ostream :=
  foldl (fun stream i =>
           stream <<< setw (to_int (_column_sizes t !!! i)) <<< std_left
                  <<< put (string_fill (half t i) space ++ _headers t !!! i)
                  <<< put bar)
        stream (columns (_num_columns t)).

Definition print_rows {Ts} (t : VariadicTable Ts) (stream : ostream) : ostream :=
  foldl (fun stream row =>
           stream <<< put bar <<< print_each (_column_sizes t) row <<< put newline)
        stream (_data t).

Definition print {Ts} (t : VariadicTable Ts) (stream : ostream)
  : VariadicTable Ts * ostream :=
  let t := size_columns t in
  let total_width := total_width t in
  let stream := stream <<< put (string_fill total_width dash) <<< put newline in
  let stream := stream <<< put bar in
  let stream := print_headers t stream in
  let stream := stream <<< put newline in
  let stream := stream <<< put (string_fill total_width dash) <<< put newline in
  let stream := print_rows t stream in
  let stream := stream <<< put (string_fill total_width dash) <<< put newline in
  (t, stream).

(** A stream in its initial state: nothing written, width 0, fill [' ']. *)
Definition fresh_stream : ostream :=
  {| os_chars := []; os_width := 0; os_adjust := adjust_right; os_fill := space |}.

(** ** Specification-side notions *)

(** The class invariant: the constructor establishes it and neither [addRow]
    nor [print] breaks it. *)
Definition table_inv {Ts} (t : VariadicTable Ts) : Prop :=
  _num_columns t = Z.of_nat (length Ts) ∧ length (_headers t) = length Ts.

(** A value's display length, in the words of the specification: the result
    of its [size()] member when the column type has one, the static fallback
    width otherwise. *)
Definition display_length (T : ColumnType) (static_column_size : Z) (v : ctype T) : Z :=
  match size_member T with
  | Some size_of => size_of v
  | None => static_column_size
  end.

Fixpoint display_lengths (Ts : list ColumnType) (static_column_size : Z)
  : DataTuple Ts -> list Z :=
  match Ts with
  | [] => fun _ => []
  | T :: Ts' => fun t =>
      display_length T static_column_size (fst t)
        :: display_lengths Ts' static_column_size (snd t)
  end.

(** The display lengths found in column [i], one per row, in row order. *)
Definition column_display_lengths {Ts} (t : VariadicTable Ts) (i : nat) : list Z :=
  (fun row => display_lengths Ts (_static_column_size t) row !!! i) <$> _data t.

(** [w] is the maximum of the numbers [xs]. *)
Definition is_maximum (w : Z) (xs : list Z) : Prop :=
  w ∈ xs ∧ ∀ x, x ∈ xs → x <= w.

(** Every header label and every display length is representable as an
    [unsigned int], respectively an [int]. *)
Definition sizes_within (bound : Z) {Ts} (t : VariadicTable Ts) : Prop :=
  Forall (fun h => size h <= bound) (_headers t) ∧
  Forall (fun row =>
            Forall (fun n => 0 <= n <= bound)
                   (display_lengths Ts (_static_column_size t) row))
         (_data t).

(** What [size_each] leaves in the vector [sizes]. *)
Fixpoint cell_sizes (Ts : list ColumnType) (static_column_size : Z)
  : DataTuple Ts -> list Z :=
  match Ts with
  | [] => fun _ => []
  | T :: Ts' => fun t =>
      to_uint (sizeOfData T static_column_size (fst t))
        :: cell_sizes Ts' static_column_size (snd t)
  end.

(** The characters each part of [print] writes, read off a stream that
    starts empty with fill character [fill]. *)
Definition blank (fill : ascii) : ostream :=
  {| os_chars := []; os_width := 0; os_adjust := adjust_right; os_fill := fill |}.

(** A horizontal rule: [std::string(total_width, '-')]. *)
Definition rule {Ts} (t : VariadicTable Ts) : std_string :=
  string_fill (total_width t) dash.

(** The header line, without its newline. *)
Definition header_line {Ts} (t : VariadicTable Ts) (fill : ascii) : std_string :=
  os_chars (blank fill <<< put bar <<< print_headers t).

(** The line of one row, without its newline. *)
Definition data_line {Ts} (t : VariadicTable Ts) (fill : ascii) (row : DataTuple Ts)
  : std_string :=
  os_chars (blank fill <<< put bar <<< print_each (_column_sizes t) row).

(** What a call wrote: the characters of [after] beyond those of [before]. *)
Definition written (before after : ostream) : std_string :=
  drop (length (os_chars before)) (os_chars after).

(** The width of a line in the words of the specification:
    1 + Σ (column_width_i + 1). *)
Definition line_width (column_sizes : list Z) : Z :=
  1 + foldr Z.add 0 ((fun w => w + 1) <$> column_sizes).

(** The characters [operator<<] inserts for each value of a row. *)
Fixpoint texts (Ts : list ColumnType) : DataTuple Ts -> list std_string :=
  match Ts with
  | [] => fun _ => []
  | T :: Ts' => fun t => inserted T (fst t) :: texts Ts' (snd t)
  end.

(** Justification in the words of the specification: the text flush against
    the right, respectively left, edge of a field of [w] characters. *)
Definition right_justified (w : Z) (fill : ascii) (text : std_string) : std_string :=
  string_fill (w - size text) fill ++ text.

Definition left_justified (w : Z) (fill : ascii) (text : std_string) : std_string :=
  text ++ string_fill (w - size text) fill.

(** A header label centred as the specification describes: the leading
    spaces are [w / 2 - label_length / 2], the rest of the field is fill. *)
Definition leading_spaces (w : Z) (label : std_string) : Z := w / 2 - size label / 2.

Definition trailing_fill (w : Z) (label : std_string) : Z :=
  w - leading_spaces w label - size label.

Definition centered (w : Z) (fill : ascii) (label : std_string) : std_string :=
  string_fill (leading_spaces w label) space ++ label
    ++ string_fill (trailing_fill w label) fill.

(** ** Notions used in the proofs *)

(** [emits s s' text]: going from [s] to [s'] appended [text], left no field
    width pending and kept the fill character. *)
Definition emits (s s' : ostream) (text : std_string) : Prop :=
  os_chars s' = os_chars s ++ text ∧ os_width s' = 0 ∧ os_fill s' = os_fill s.

(** The field written for the header of column [i]. *)
Definition header_cell {Ts} (t : VariadicTable Ts) (fill : ascii) (i : nat) : std_string :=
  field (to_int (_column_sizes t !!! i)) adjust_left fill
        (string_fill (half t i) space ++ _headers t !!! i).

(** The fields written for the values of a row, from position [I] on. *)
Fixpoint row_cells (Ts : list ColumnType) (column_sizes : list Z) (fill : ascii)
    (I : nat) : DataTuple Ts -> list std_string :=
  match Ts with
  | [] => fun _ => []
  | T :: Ts' => fun t =>
      field (to_int (column_sizes !!! I))
            (if is_arithmetic T then adjust_right else adjust_left)
            fill (inserted T (fst t))
        :: row_cells Ts' column_sizes fill (S I) (snd t)
  end.

(** Cells on a line: each is followed by a bar. *)
Definition barred (cells : list std_string) : std_string :=
  concat ((fun cell => cell ++ bar) <$> cells).


(** The tables a program can hold: built by the constructor, then changed
    by [addRow] and [print] only. *)
Inductive reachable {Ts} : VariadicTable Ts -> Prop :=
| reachable_ctor headers static_column_size t :
    Z.of_nat (length Ts) <= UINT_MAX ->
    VariadicTable_ctor Ts headers static_column_size = Constructed t ->
    reachable t
| reachable_addRow t row : reachable t -> reachable (addRow row t)
| reachable_print t stream : reachable t -> reachable (fst (print t stream)).

(** ** Example tables *)

(** [VariadicTable<std::string, int, const char *>] with two rows. *)
Definition person_columns : list ColumnType := [string_col; int_col; c_str_col].

Definition person_headers : list std_string := [lit "Name"; lit "Age"; lit "Brother"].

Definition no_people : VariadicTable person_columns :=
  {| _headers := person_headers; _num_columns := 3; _static_column_size := 0;
     _data := []; _column_sizes := [] |}.

Definition fred : DataTuple person_columns := (lit "Fred", (35, (lit "Sam", tt))).
Definition alexander : DataTuple person_columns := (lit "Alexander", (-7, (lit "Sam", tt))).

Definition people : VariadicTable person_columns := addRow alexander (addRow fred no_people).

(** [VariadicTable<int>] whose only value prints wider than its header. *)
Definition no_numbers : VariadicTable [int_col] :=
  {| _headers := [lit "A"]; _num_columns := 1; _static_column_size := 0;
     _data := []; _column_sizes := [] |}.

Definition number_row : DataTuple [int_col] := (12345, tt).

Definition numbers : VariadicTable [int_col] := addRow number_row no_numbers.

(** [VariadicTable<std::string>] with a three-letter header over a
    four-letter value. *)
Definition no_ages : VariadicTable [string_col] :=
  {| _headers := [lit "Age"]; _num_columns := 1; _static_column_size := 0;
     _data := []; _column_sizes := [] |}.

Definition ages : VariadicTable [string_col] :=
  addRow ((lit "abcd", tt) : DataTuple [string_col]) no_ages.

(** ** Tables at the limits of the integer types *)

(** [VariadicTable<std::string>] under the header ["Name"] with one row
    holding [value]. *)
Definition name_table (value : std_string) : VariadicTable [string_col] :=
  addRow ((value, tt) : DataTuple [string_col])
         {| _headers := [lit "Name"]; _num_columns := 1; _static_column_size := 0;
            _data := []; _column_sizes := [] |}.

(** A string of 2^32 + 3 characters. *)
Definition long_text : std_string := string_fill 4294967299 "x"%char.

(** [VariadicTable<int>] without rows under the header [label]. *)
Definition headed_table (label : std_string) : VariadicTable [int_col] :=
  {| _headers := [label]; _num_columns := 1; _static_column_size := 0;
     _data := []; _column_sizes := [] |}.

(** A string of 2^32 characters. *)
Definition long_label : std_string := string_fill 4294967296 "x"%char.

(** [VariadicTable<int, int>] with the fallback width 2^31. *)
Definition wide_fallback_row : DataTuple [int_col; int_col] := (35, (-7, tt)).

Definition no_wide_fallback : VariadicTable [int_col; int_col] :=
  {| _headers := [lit "A"; lit "B"]; _num_columns := 2;
     _static_column_size := 2147483648; _data := []; _column_sizes := [] |}.

Definition wide_fallback : VariadicTable [int_col; int_col] :=
  addRow wide_fallback_row no_wide_fallback.

(** A fresh stream after [stream << std::setw(30)]. *)
Definition pending_stream : ostream := setw 30 fresh_stream.

(** Closes a goal that bounds the lengths of a concrete table. *)
Ltac in_range := repeat constructor; vm_compute; discriminate.

(** [extends s s']: [s'] holds the characters of [s] followed by more, under
    the same fill character. *)
Definition extends (s s' : ostream) : Prop :=
  (∃ text, os_chars s' = os_chars s ++ text) ∧ os_fill s' = os_fill s.

(** The adjustment flag [print] leaves on the stream: the caller's when
    there is no column, [left] after the header line of a table without
    rows, the justification of the last column otherwise. *)
Definition adjust_after (Ts : list ColumnType) {A} (rows : list A)
    (before : adjustfield) : adjustfield :=
  match last Ts, rows with
  | None, _ => before
  | Some _, [] => adjust_left
  | Some T, _ :: _ => if is_arithmetic T then adjust_right else adjust_left
  end.

(** * Properties *)

(** ** Integer conversions *)

Lemma to_uint_small z : 0 <= z <= UINT_MAX → to_uint z = z.
Proof. unfold to_uint, UINT_MAX. intros. apply Z.mod_small. lia. Qed.

Lemma to_uint_range z : 0 <= to_uint z <= UINT_MAX.
Proof.
  unfold to_uint, UINT_MAX.
  pose proof (Z.mod_pos_bound z 4294967296). lia.
Qed.

Lemma to_size_t_small z : 0 <= z <= UINT_MAX → to_size_t z = z.
Proof. unfold to_size_t, UINT_MAX. intros. apply Z.mod_small. lia. Qed.

Lemma to_int_small z : 0 <= z <= INT_MAX → to_int z = z.
Proof.
  unfold to_int, INT_MAX. intros. rewrite to_uint_small by (unfold UINT_MAX; lia).
  destruct (Z.leb_spec z 2147483647); lia.
Qed.

(** ** Vectors written in a counting loop *)

Lemma foldl_insert_lookup (g : nat → Z → Z) m : ∀ k (cs : list Z) j,
  foldl (fun cs i => <[i := g i (cs !!! i)]> cs) cs (seq k m) !! j
  = if decide (k ≤ j < k + m)%nat then g j <$> cs !! j else cs !! j.
Proof.
  induction m as [|m IH]; intros k cs j; simpl.
  - case_decide; [lia | done].
  - rewrite IH. destruct (decide (j = k)) as [->|Hne].
    + rewrite decide_False by lia. rewrite decide_True by lia.
      destruct (cs !! k) as [x|] eqn:Hk.
      * rewrite list_lookup_insert_eq by (eapply lookup_lt_Some; eauto).
        simpl. by rewrite (list_lookup_total_correct _ _ _ Hk).
      * rewrite list_insert_ge by (by apply lookup_ge_None). by rewrite Hk.
    + rewrite list_lookup_insert_ne by done.
      repeat case_decide; try lia; done.
Qed.

Lemma foldl_insert_imap (g : nat → Z → Z) (cs : list Z) n :
  length cs = n →
  foldl (fun cs i => <[i := g i (cs !!! i)]> cs) cs (seq 0 n) = imap g cs.
Proof.
  intros <-. apply list_eq. intros j. rewrite foldl_insert_lookup, list_lookup_imap.
  case_decide as Hj; [done|].
  rewrite lookup_ge_None_2 by lia. done.
Qed.

Lemma foldl_insert_const (f : nat → Z) (cs : list Z) n :
  length cs = n →
  foldl (fun cs i => <[i := f i]> cs) cs (seq 0 n) = imap (fun i _ => f i) cs.
Proof. exact (foldl_insert_imap (fun i _ => f i) cs n). Qed.

(** ** [size_each] and [size_columns] *)

Lemma length_cell_sizes Ts st : ∀ t, length (cell_sizes Ts st t) = length Ts.
Proof. induction Ts as [|T Ts IH]; intros t; simpl; [done | by rewrite IH]. Qed.

Lemma length_display_lengths Ts st : ∀ t, length (display_lengths Ts st t) = length Ts.
Proof. induction Ts as [|T Ts IH]; intros t; simpl; [done | by rewrite IH]. Qed.

Lemma size_each_at_lookup Ts st : ∀ I t (sizes : list Z) j,
  (I + length Ts ≤ length sizes)%nat →
  size_each_at Ts st I t sizes !! j
  = if decide (I ≤ j < I + length Ts)%nat
    then cell_sizes Ts st t !! (j - I)%nat else sizes !! j.
Proof.
  induction Ts as [|T Ts IH]; intros I t sizes j Hlen; simpl in *.
  - case_decide; [lia | done].
  - rewrite IH by (rewrite length_insert; lia).
    destruct (decide (j = I)) as [->|Hne].
    + rewrite decide_False by lia. rewrite decide_True by lia.
      rewrite Nat.sub_diag. simpl. apply list_lookup_insert_eq. lia.
    + rewrite list_lookup_insert_ne by done.
      repeat case_decide; try lia; try done.
      replace (j - I)%nat with (S (j - S I)) by lia. done.
Qed.

Lemma size_each_spec Ts st (t : DataTuple Ts) (sizes : list Z) :
  length sizes = length Ts → size_each st t sizes = cell_sizes Ts st t.
Proof.
  intros Hlen. apply list_eq. intros j. unfold size_each.
  rewrite size_each_at_lookup by lia. case_decide as Hj.
  - by rewrite Nat.sub_0_r.
  - rewrite !lookup_ge_None_2; [done | rewrite length_cell_sizes; lia | lia].
Qed.

(** In range, the sizes the code stores are the display lengths. *)
Lemma cell_sizes_display Ts st : ∀ t,
  Forall (fun n => 0 <= n <= UINT_MAX) (display_lengths Ts st t) →
  cell_sizes Ts st t = display_lengths Ts st t.
Proof.
  induction Ts as [|T Ts IH]; intros t Hfit; simpl in *; [done|].
  apply Forall_cons in Hfit as [Hhd Htl]. rewrite IH by done. f_equal.
  unfold sizeOfData, display_length in *.
  destruct (size_member T); rewrite to_size_t_small, to_uint_small; done.
Qed.

Lemma within_int_uint n : 0 <= n <= INT_MAX → 0 <= n <= UINT_MAX.
Proof. unfold INT_MAX, UINT_MAX. lia. Qed.

(** The loop over the rows: each pass overwrites the temporary vector and
    raises every column size to the row's entry. *)
Lemma rows_loop_lookup Ts st n (rows : list (DataTuple Ts)) :
  ∀ (cs column_sizes : list Z) i,
  length cs = length Ts → length column_sizes = length Ts →
  Z.to_nat n = length Ts →
  (foldl (fun '(cs, column_sizes) row =>
            let column_sizes := size_each st row column_sizes in
            (foldl (fun cs i => <[i := Z.max (cs !!! i) (column_sizes !!! i)]> cs)
                   cs (columns n),
             column_sizes))
         (cs, column_sizes) rows).1 !! i
  = (fun x => foldl Z.max x ((fun row => cell_sizes Ts st row !!! i) <$> rows))
      <$> cs !! i.
Proof.
  induction rows as [|row rows IH]; intros cs column_sizes i Hcs Hcol Hn; simpl.
  - by destruct (cs !! i).
  - rewrite size_each_spec by done. unfold columns.
    rewrite (foldl_insert_imap (fun i x => Z.max x (cell_sizes Ts st row !!! i)))
      by lia.
    fold (columns n). rewrite IH.
    + rewrite list_lookup_imap. by destruct (cs !! i).
    + by rewrite length_imap.
    + by rewrite length_cell_sizes.
    + done.
Qed.

Lemma size_columns_lookup {Ts} (t : VariadicTable Ts) (i : nat) :
  table_inv t → (i < length Ts)%nat →
  _column_sizes (size_columns t) !! i
  = Some (foldl Z.max (to_uint (size (_headers t !!! i)))
                ((fun row => cell_sizes Ts (_static_column_size t) row !!! i)
                   <$> _data t)).
Proof.
  intros [Hn Hh] Hi. unfold size_columns. simpl.
  pose proof (length_resize (_column_sizes t) (Z.to_nat (_num_columns t)) 0) as Hr.
  unfold columns at 2.
  rewrite (foldl_insert_const (fun i => to_uint (size (_headers t !!! i)))) by done.
  rewrite rows_loop_lookup.
  - rewrite list_lookup_imap.
    destruct (lookup_lt_is_Some_2 (resize (Z.to_nat (_num_columns t)) 0 (_column_sizes t)) i)
      as [x ->]; [rewrite Hr; lia | done].
  - rewrite length_imap. lia.
  - rewrite length_replicate; lia.
  - lia.
Qed.

Lemma foldl_max_is_maximum (l : list Z) : ∀ x, is_maximum (foldl Z.max x l) (x :: l).
Proof.
  unfold is_maximum. induction l as [|a l IH]; intros x; simpl.
  - split; [apply list_elem_of_here|]. intros y Hy.
    apply list_elem_of_singleton in Hy. lia.
  - destruct (IH (Z.max x a)) as [Hin Hub]. split.
    + apply elem_of_cons in Hin as [Heq|Hin].
      * rewrite Heq. destruct (Z.max_spec x a) as [[_ ->]|[_ ->]];
          [apply list_elem_of_further, list_elem_of_here | apply list_elem_of_here].
      * by do 2 apply list_elem_of_further.
    + intros y Hy. pose proof (Hub (Z.max x a) (list_elem_of_here _ _)) as Hm.
      apply elem_of_cons in Hy as [->|Hy]; [lia|].
      apply elem_of_cons in Hy as [->|Hy]; [lia|].
      apply Hub. by apply list_elem_of_further.
Qed.

Lemma print_table {Ts} (t : VariadicTable Ts) stream :
  (print t stream).1 = size_columns t.
Proof. reflexivity. Qed.

Lemma header_within {Ts} (t : VariadicTable Ts) bound i :
  sizes_within bound t → (i < length (_headers t))%nat →
  0 <= size (_headers t !!! i) <= bound.
Proof.
  intros [Hh _] Hi. split; [unfold size; lia|].
  rewrite Forall_forall in Hh. apply Hh.
  apply list_elem_of_lookup. exists i. by apply list_lookup_lookup_total_lt.
Qed.

Lemma column_sizes_display {Ts} (t : VariadicTable Ts) i :
  sizes_within UINT_MAX t →
  (fun row => cell_sizes Ts (_static_column_size t) row !!! i) <$> _data t
  = column_display_lengths t i.
Proof.
  intros [_ Hr]. unfold column_display_lengths.
  induction Hr as [|row rows Hrow _ IH]; [done|].
  rewrite !fmap_cons, IH. by rewrite cell_sizes_display.
Qed.

Lemma size_columns_maximum {Ts} (t : VariadicTable Ts) (i : nat) :
  table_inv t → sizes_within UINT_MAX t → (i < length Ts)%nat →
  ∃ w, _column_sizes (size_columns t) !! i = Some w ∧
       is_maximum w (size (_headers t !!! i) :: column_display_lengths t i).
Proof.
  intros Hinv Hfit Hi. rewrite size_columns_lookup by done.
  eexists; split; [done|].
  rewrite column_sizes_display by done.
  rewrite to_uint_small by (apply header_within; [done | destruct Hinv; lia]).
  apply foldl_max_is_maximum.
Qed.

(** C1 (amended): the width the render pass computes for column [i] is the maximum of
    the header label's length and the display lengths of the column's values
    over all rows, a display length being the [size()] result when the column
    type has that member and the static fallback width otherwise (all lengths
    representable as [unsigned int]). *)
Theorem column_width_is_maximum {Ts} (t : VariadicTable Ts) (stream : ostream) (i : nat) :
  table_inv t → sizes_within UINT_MAX t → (i < length Ts)%nat →
  ∃ w, _column_sizes (print t stream).1 !! i = Some w ∧
       is_maximum w (size (_headers t !!! i) :: column_display_lengths t i).
Proof. intros. rewrite print_table. by apply size_columns_maximum. Qed.

(** ** The stream *)

Lemma string_fill_nonpos n c : n <= 0 → string_fill n c = [].
Proof. intros. unfold string_fill. by replace (Z.to_nat n) with 0%nat by lia. Qed.

Lemma size_string_fill n c : 0 <= n → size (string_fill n c) = n.
Proof. intros. unfold size, string_fill. rewrite length_replicate. lia. Qed.

Lemma size_app (a b : std_string) : size (a ++ b) = size a + size b.
Proof. unfold size. rewrite length_app. lia. Qed.

Lemma size_nonneg (a : std_string) : 0 <= size a.
Proof. unfold size. lia. Qed.

Lemma field_unpadded w adj fill text : w <= size text → field w adj fill text = text.
Proof.
  intros. unfold field. rewrite string_fill_nonpos by lia.
  destruct adj; simpl; by rewrite ?app_nil_r.
Qed.

Lemma size_field w adj fill text : size (field w adj fill text) = Z.max w (size text).
Proof.
  unfold field. destruct (Z.le_gt_cases w (size text)).
  - rewrite string_fill_nonpos by lia.
    destruct adj; simpl; rewrite ?app_nil_r; lia.
  - destruct adj; rewrite size_app, size_string_fill; lia.
Qed.

Lemma emits_refl s : os_width s = 0 → emits s s [].
Proof. intros. unfold emits. by rewrite app_nil_r. Qed.

Lemma emits_trans s1 s2 s3 a b : emits s1 s2 a → emits s2 s3 b → emits s1 s3 (a ++ b).
Proof.
  intros (Ha & _ & Hf1) (Hb & Hw & Hf2). unfold emits.
  rewrite Hb, Ha, Hf2, Hf1, app_assoc. done.
Qed.

(** An insertion with no width pending writes the text as it is. *)
Lemma put_emits text s : os_width s = 0 → emits s (put text s) text.
Proof.
  intros Hw. unfold emits, put; simpl. rewrite Hw.
  rewrite field_unpadded by apply size_nonneg. done.
Qed.

(** An insertion under [setw] and an explicit adjustment. *)
Lemma put_field_left w text s :
  emits s (s <<< setw w <<< std_left <<< put text)
        (field w adjust_left (os_fill s) text).
Proof. done. Qed.

Lemma put_field_justify T w text s :
  emits s (s <<< setw w <<< justify T <<< put text)
        (field w (if is_arithmetic T then adjust_right else adjust_left) (os_fill s) text).
Proof. unfold justify. by destruct (is_arithmetic T). Qed.

Lemma os_fill_justify T s : os_fill (justify T s) = os_fill s.
Proof. unfold justify. by destruct (is_arithmetic T). Qed.

Lemma emits_written s s' text : emits s s' text → written s s' = text.
Proof. intros (H & _). unfold written. rewrite H. by rewrite drop_app_length. Qed.

(** ** The header line and the data lines *)

Lemma barred_cons cell cells : barred (cell :: cells) = cell ++ bar ++ barred cells.
Proof. unfold barred. simpl. by rewrite <- app_assoc. Qed.

Lemma barred_snoc cells cell : barred (cells ++ [cell]) = barred cells ++ cell ++ bar.
Proof. unfold barred. rewrite fmap_app, concat_app. simpl. by rewrite app_nil_r. Qed.

Lemma header_loop_emits {Ts} (t : VariadicTable Ts) (cols : list nat) : ∀ s,
  os_width s = 0 →
  emits s (foldl (fun stream i =>
                    stream <<< setw (to_int (_column_sizes t !!! i)) <<< std_left
                           <<< put (string_fill (half t i) space ++ _headers t !!! i)
                           <<< put bar)
                 s cols)
        (barred (header_cell t (os_fill s) <$> cols)).
Proof.
  induction cols as [|i cols IH]; intros s Hw; simpl.
  - by apply emits_refl.
  - rewrite barred_cons, app_assoc.
    eapply emits_trans; [|].
    + eapply emits_trans; [apply put_field_left|]. by apply put_emits.
    + exact (IH (s <<< setw (to_int (_column_sizes t !!! i)) <<< std_left
                   <<< put (string_fill (half t i) space ++ _headers t !!! i)
                   <<< put bar) eq_refl).
Qed.

Lemma print_headers_emits {Ts} (t : VariadicTable Ts) s :
  os_width s = 0 →
  emits s (print_headers t s)
        (barred (header_cell t (os_fill s) <$> columns (_num_columns t))).
Proof. apply header_loop_emits. Qed.

Lemma print_each_at_emits Ts column_sizes : ∀ I (t : DataTuple Ts) s,
  os_width s = 0 →
  emits s (print_each_at Ts column_sizes I t s)
        (barred (row_cells Ts column_sizes (os_fill s) I t)).
Proof.
  induction Ts as [|T Ts IH]; intros I t s Hw; simpl.
  - by apply emits_refl.
  - rewrite barred_cons, app_assoc.
    eapply emits_trans.
    + eapply emits_trans; [apply put_field_justify|]. by apply put_emits.
    + pose proof (IH (S I) (snd t)
                (s <<< setw (to_int (column_sizes !!! I)) <<< justify T
                   <<< put (inserted T (fst t)) <<< put bar) eq_refl) as Hrest.
      simpl in Hrest. by rewrite os_fill_justify in Hrest.
Qed.

Lemma header_line_cells {Ts} (t : VariadicTable Ts) fill :
  header_line t fill
  = bar ++ barred (header_cell t fill <$> columns (_num_columns t)).
Proof.
  unfold header_line.
  destruct (print_headers_emits t (put bar (blank fill)) eq_refl) as (-> & _). done.
Qed.

Lemma data_line_cells {Ts} (t : VariadicTable Ts) fill (row : DataTuple Ts) :
  data_line t fill row = bar ++ barred (row_cells Ts (_column_sizes t) fill 0 row).
Proof.
  unfold data_line, print_each.
  destruct (print_each_at_emits Ts (_column_sizes t) 0 row (put bar (blank fill)) eq_refl)
    as (-> & _). done.
Qed.

Lemma header_line_emits {Ts} (t : VariadicTable Ts) s :
  os_width s = 0 →
  emits s (s <<< put bar <<< print_headers t) (header_line t (os_fill s)).
Proof.
  intros Hw. rewrite header_line_cells.
  eapply emits_trans; [by apply put_emits|].
  exact (print_headers_emits t (put bar s) eq_refl).
Qed.

Lemma data_line_emits {Ts} (t : VariadicTable Ts) (row : DataTuple Ts) s :
  os_width s = 0 →
  emits s (s <<< put bar <<< print_each (_column_sizes t) row)
        (data_line t (os_fill s) row).
Proof.
  intros Hw. rewrite data_line_cells.
  eapply emits_trans; [by apply put_emits|].
  exact (print_each_at_emits Ts (_column_sizes t) 0 row (put bar s) eq_refl).
Qed.

Lemma rows_loop_emits {Ts} (t : VariadicTable Ts) (rows : list (DataTuple Ts)) : ∀ s,
  os_width s = 0 →
  emits s (foldl (fun stream row =>
                    stream <<< put bar <<< print_each (_column_sizes t) row
                           <<< put newline)
                 s rows)
        (concat ((fun row => data_line t (os_fill s) row ++ newline) <$> rows)).
Proof.
  induction rows as [|row rows IH]; intros s Hw.
  - by apply emits_refl.
  - rewrite fmap_cons. simpl concat. simpl foldl.
    pose proof (data_line_emits t row s Hw) as Hline.
    assert (emits s (s <<< put bar <<< print_each (_column_sizes t) row <<< put newline)
                  (data_line t (os_fill s) row ++ newline)) as Hfirst.
    { eapply emits_trans; [exact Hline|]. apply put_emits. apply Hline. }
    eapply emits_trans; [exact Hfirst|].
    destruct Hfirst as (_ & Hw' & Hf'). rewrite <- Hf'. by apply IH.
Qed.

Lemma print_rows_emits {Ts} (t : VariadicTable Ts) s :
  os_width s = 0 →
  emits s (print_rows t s)
        (concat ((fun row => data_line t (os_fill s) row ++ newline) <$> _data t)).
Proof. apply rows_loop_emits. Qed.

(** The shape of what [print] writes: rule, header line, rule, one line per
    stored row in order, rule; every one ended by a newline. *)
Lemma print_emits {Ts} (t : VariadicTable Ts) s :
  os_width s = 0 →
  emits s (print t s).2
        (rule (size_columns t) ++ newline
         ++ header_line (size_columns t) (os_fill s) ++ newline
         ++ rule (size_columns t) ++ newline
         ++ concat ((fun row => data_line (size_columns t) (os_fill s) row ++ newline)
                      <$> _data t)
         ++ rule (size_columns t) ++ newline).
Proof.
  intros Hw. unfold print. cbv zeta. simpl snd.
  set (t' := size_columns t).
  assert (∀ s0, os_width s0 = 0 →
            emits s0 (s0 <<< put (rule t') <<< put newline) (rule t' ++ newline))
    as Hrule.
  { intros s0 H0. eapply emits_trans; [by apply put_emits|]. by apply put_emits. }
  pose proof (Hrule s Hw) as H1.
  set (s1 := s <<< put (rule t') <<< put newline) in *.
  assert (emits s1 (s1 <<< put bar <<< print_headers t' <<< put newline)
                (header_line t' (os_fill s) ++ newline)) as H2.
  { destruct H1 as (_ & Hw1 & <-).
    eapply emits_trans; [by apply header_line_emits|].
    apply put_emits. by apply (header_line_emits t' s1). }
  set (s2 := s1 <<< put bar <<< print_headers t' <<< put newline) in *.
  assert (os_width s2 = 0 ∧ os_fill s2 = os_fill s) as [Hw2 Hf2].
  { destruct H1 as (_ & _ & <-), H2 as (_ & ? & ?). done. }
  pose proof (Hrule s2 Hw2) as H3.
  set (s3 := s2 <<< put (rule t') <<< put newline) in *.
  assert (os_width s3 = 0 ∧ os_fill s3 = os_fill s) as [Hw3 Hf3].
  { destruct H3 as (_ & ? & ?). split; [done | congruence]. }
  pose proof (print_rows_emits t' s3 Hw3) as H4. rewrite Hf3 in H4.
  set (s4 := print_rows t' s3) in *.
  assert (os_width s4 = 0) as Hw4 by apply H4.
  pose proof (Hrule s4 Hw4) as H5.
  pose proof (emits_trans _ _ _ _ _ H1
               (emits_trans _ _ _ _ _ H2
                 (emits_trans _ _ _ _ _ H3 (emits_trans _ _ _ _ _ H4 H5)))) as Hall.
  rewrite <- !app_assoc in Hall. exact Hall.
Qed.

(** ** The class invariant *)

Lemma constructed_inv Ts headers static (t : VariadicTable Ts) :
  Z.of_nat (length Ts) <= UINT_MAX →
  VariadicTable_ctor Ts headers static = Constructed t → table_inv t.
Proof.
  intros Hfit. unfold VariadicTable_ctor.
  rewrite to_uint_small by lia.
  destruct (Z.eqb_spec (Z.of_nat (length headers)) (Z.of_nat (length Ts))) as [Heq|Hne];
    simpl; [|done].
  intros [= <-]. split; simpl; lia.
Qed.

Lemma addRow_inv {Ts} (t : VariadicTable Ts) row : table_inv t → table_inv (addRow row t).
Proof. done. Qed.

Lemma size_columns_inv {Ts} (t : VariadicTable Ts) : table_inv t → table_inv (size_columns t).
Proof. done. Qed.

Lemma print_inv {Ts} (t : VariadicTable Ts) stream : table_inv t → table_inv (print t stream).1.
Proof. done. Qed.

Lemma reachable_inv {Ts} (t : VariadicTable Ts) : reachable t → table_inv t.
Proof.
  induction 1 as [headers static t Hfit Hctor | t row _ IH | t stream _ IH].
  - by eapply constructed_inv.
  - by apply addRow_inv.
  - by apply print_inv.
Qed.

(** ** Recomputation of the widths *)

Lemma imap_const_seq (f : nat → Z) (l : list Z) :
  imap (fun i _ => f i) l = f <$> seq 0 (length l).
Proof.
  apply list_eq. intros i. rewrite list_lookup_imap, list_lookup_fmap.
  destruct (decide (i < length l)%nat) as [Hi|Hi].
  - rewrite lookup_seq_lt by done.
    destruct (lookup_lt_is_Some_2 l i Hi) as [x ->]. done.
  - rewrite lookup_seq_ge by lia. rewrite lookup_ge_None_2 by lia. done.
Qed.

(** The widths a pass computes do not depend on the widths stored before. *)
Lemma size_columns_fresh {Ts} (t u : VariadicTable Ts) :
  _headers u = _headers t → _num_columns u = _num_columns t →
  _static_column_size u = _static_column_size t → _data u = _data t →
  size_columns u = size_columns t.
Proof.
  intros Hh Hn Hs Hd. unfold size_columns. rewrite Hh, Hn, Hs, Hd.
  f_equal. f_equal. f_equal. f_equal. unfold columns.
  rewrite !(foldl_insert_const (fun i => to_uint (size (_headers t !!! i))))
    by apply length_resize.
  by rewrite !imap_const_seq, !length_resize.
Qed.

Lemma size_columns_idem {Ts} (t : VariadicTable Ts) :
  size_columns (size_columns t) = size_columns t.
Proof. by apply size_columns_fresh. Qed.

Lemma length_size_columns {Ts} (t : VariadicTable Ts) :
  table_inv t → length (_column_sizes (size_columns t)) = length Ts.
Proof.
  intros Hinv.
  destruct (decide (length (_column_sizes (size_columns t)) = length Ts)) as [|Hne];
    [done | exfalso].
  destruct (decide (length (_column_sizes (size_columns t)) < length Ts)%nat) as [Hlt|Hge].
  - pose proof (size_columns_lookup t _ Hinv Hlt) as Hl.
    apply lookup_lt_Some in Hl. lia.
  - assert (is_Some (_column_sizes (size_columns t) !! length Ts)) as [x Hx]
      by (apply lookup_lt_is_Some_2; lia).
    revert Hx. unfold size_columns. simpl. destruct Hinv as [Hn Hh].
    rewrite rows_loop_lookup.
    + unfold columns.
      rewrite (foldl_insert_const (fun i => to_uint (size (_headers t !!! i))))
        by apply length_resize.
      rewrite list_lookup_imap, lookup_ge_None_2; [done|].
      rewrite length_resize. lia.
    + unfold columns.
      rewrite (foldl_insert_const (fun i => to_uint (size (_headers t !!! i))))
        by apply length_resize.
      rewrite length_imap, length_resize. lia.
    + rewrite length_replicate. lia.
    + lia.
Qed.

(** Without rows the widths are the header lengths. *)
Lemma size_columns_no_rows {Ts} (t : VariadicTable Ts) :
  table_inv t → _data t = [] →
  Forall (fun h => size h <= UINT_MAX) (_headers t) →
  _column_sizes (size_columns t) = size <$> _headers t.
Proof.
  intros Hinv Hd Hfit. apply list_eq. intros i.
  destruct (decide (i < length Ts)%nat) as [Hi|Hi].
  - rewrite size_columns_lookup, Hd by done. simpl.
    destruct Hinv as [_ Hh].
    destruct (lookup_lt_is_Some_2 (_headers t) i) as [h Hl]; [lia|].
    rewrite list_lookup_fmap, Hl. simpl.
    rewrite (list_lookup_total_correct _ _ _ Hl).
    rewrite to_uint_small; [done|]. split; [apply size_nonneg|].
    rewrite Forall_forall in Hfit. apply Hfit. eapply list_elem_of_lookup_2; eauto.
  - rewrite !lookup_ge_None_2; [done | |].
    + rewrite length_fmap. destruct Hinv. lia.
    + rewrite length_size_columns by done. lia.
Qed.

(** ** Construction *)

(** C3: the constructor aborts exactly when the number of header strings
    differs from the declared column count; otherwise it succeeds and stores
    the headers and the fallback width as given (the column count being
    representable as [unsigned int]). *)
Theorem constructor_aborts_iff_mismatch (Ts : list ColumnType)
    (headers : list std_string) (static_column_size : Z) :
  Z.of_nat (length Ts) <= UINT_MAX →
  ((∃ message, VariadicTable_ctor Ts headers static_column_size = Aborted message)
     ↔ length headers ≠ length Ts)
  ∧ (length headers = length Ts →
     ∃ t, VariadicTable_ctor Ts headers static_column_size = Constructed t
          ∧ _headers t = headers
          ∧ _static_column_size t = static_column_size
          ∧ _data t = []).
Proof.
  intros Hfit. unfold VariadicTable_ctor. rewrite to_uint_small by lia.
  destruct (Z.eqb_spec (Z.of_nat (length headers)) (Z.of_nat (length Ts))) as [Heq|Hne];
    simpl.
  - split.
    + split; [intros [message [=]] | lia].
    + intros _. eexists. repeat split.
  - split.
    + split; [lia | eauto].
    + lia.
Qed.

(** ** Rows *)

Lemma data_after_rows {Ts} (rows : list (DataTuple Ts)) : ∀ t : VariadicTable Ts,
  _data (foldl (fun t row => addRow row t) t rows) = _data t ++ rows.
Proof.
  induction rows as [|row rows IH]; intros t; simpl.
  - by rewrite app_nil_r.
  - rewrite IH. simpl. by rewrite <- app_assoc.
Qed.

(** ** Frame *)

(** C9: [addRow] changes nothing but the row sequence, which keeps the rows
    it had; [print] changes nothing but the column widths. *)
Theorem operations_frame {Ts} (t : VariadicTable Ts) (row : DataTuple Ts)
    (stream : ostream) :
  (_headers (addRow row t) = _headers t
   ∧ _num_columns (addRow row t) = _num_columns t
   ∧ _static_column_size (addRow row t) = _static_column_size t
   ∧ _column_sizes (addRow row t) = _column_sizes t
   ∧ _data (addRow row t) = _data t ++ [row]
   ∧ ∀ i r, _data t !! i = Some r → _data (addRow row t) !! i = Some r)
  ∧ (_headers (print t stream).1 = _headers t
     ∧ _num_columns (print t stream).1 = _num_columns t
     ∧ _static_column_size (print t stream).1 = _static_column_size t
     ∧ _data (print t stream).1 = _data t).
Proof.
  repeat split. intros i r Hr. simpl. by apply lookup_app_l_Some.
Qed.

(** ** Printing twice *)

Lemma print_width {Ts} (t : VariadicTable Ts) stream : os_width (print t stream).2 = 0.
Proof. done. Qed.

(** ** Bounds on the widths *)

Lemma sizes_within_mono {Ts} (t : VariadicTable Ts) b1 b2 :
  b1 <= b2 → sizes_within b1 t → sizes_within b2 t.
Proof.
  intros Hb [Hh Hr]. split.
  - eapply Forall_impl; [exact Hh|]. simpl. intros. lia.
  - eapply Forall_impl; [exact Hr|]. simpl. intros row Hrow.
    eapply Forall_impl; [exact Hrow|]. simpl. intros. lia.
Qed.


Lemma cell_sizes_range Ts st : ∀ (t : DataTuple Ts) i x,
  cell_sizes Ts st t !! i = Some x → 0 <= x <= UINT_MAX.
Proof.
  induction Ts as [|T Ts IH]; intros t i x; simpl; [done|].
  destruct i as [|i]; simpl.
  - intros [= <-]. apply to_uint_range.
  - apply IH.
Qed.

(** Whatever the rows hold, a width is an [unsigned int] no smaller than the
    stored header length. *)
Lemma width_at_least_header {Ts} (t : VariadicTable Ts) (i : nat) :
  table_inv t → (i < length Ts)%nat →
  ∃ w, _column_sizes (size_columns t) !! i = Some w
       ∧ to_uint (size (_headers t !!! i)) <= w <= UINT_MAX.
Proof.
  intros Hinv Hi. rewrite size_columns_lookup by done. eexists; split; [done|].
  generalize (to_uint_range (size (_headers t !!! i))).
  generalize (to_uint (size (_headers t !!! i))).
  induction (_data t) as [|row rows IH]; intros x Hx; simpl; [lia|].
  assert (0 <= cell_sizes Ts (_static_column_size t) row !!! i <= UINT_MAX) as Hc.
  { eapply cell_sizes_range. apply list_lookup_lookup_total_lt.
    rewrite length_cell_sizes. done. }
  destruct (IH (Z.max x (cell_sizes Ts (_static_column_size t) row !!! i)))
    as [Hlo Hhi]; [lia|].
  split; [etrans; [|exact Hlo]; lia | exact Hhi].
Qed.

(** With every length within [bound], so is every width. *)
Lemma width_within {Ts} (t : VariadicTable Ts) bound (i : nat) w :
  table_inv t → bound <= UINT_MAX → sizes_within bound t →
  _column_sizes (size_columns t) !! i = Some w →
  size (_headers t !!! i) <= w <= bound.
Proof.
  intros Hinv Hb Hfit Hw.
  assert (i < length Ts)%nat as Hi.
  { apply lookup_lt_Some in Hw. by rewrite length_size_columns in Hw. }
  destruct (size_columns_maximum t i Hinv (sizes_within_mono t _ _ Hb Hfit) Hi)
    as (w' & Hw' & Hin & Hub).
  rewrite Hw in Hw'. injection Hw' as <-. split.
  - apply Hub, list_elem_of_here.
  - apply elem_of_cons in Hin as [->|Hin].
    + apply header_within; [done | destruct Hinv; lia].
    + unfold column_display_lengths in Hin.
      apply list_elem_of_fmap in Hin as (row & -> & Hrow).
      destruct Hfit as [_ Hr]. rewrite Forall_forall in Hr.
      specialize (Hr row Hrow). rewrite Forall_forall in Hr.
      apply Hr. apply list_elem_of_lookup. exists i.
      apply list_lookup_lookup_total_lt. by rewrite length_display_lengths.
Qed.

(** ** The header arithmetic *)

Lemma half_no_wrap {Ts} (t : VariadicTable Ts) (i : nat) w :
  _column_sizes t !! i = Some w →
  0 <= size (_headers t !!! i) <= w → w <= UINT_MAX →
  half t i = leading_spaces w (_headers t !!! i)
  ∧ size (_headers t !!! i) / 2 <= w / 2.
Proof.
  intros Hw Hh Hb. unfold half, leading_spaces.
  rewrite (list_lookup_total_correct _ _ _ Hw).
  assert (size (_headers t !!! i) / 2 <= w / 2) as Hdiv by (apply Z.div_le_mono; lia).
  assert (0 <= size (_headers t !!! i) / 2) by (apply Z.div_pos; lia).
  assert (0 <= w / 2 <= w) by (split; [apply Z.div_pos; lia | apply Z.div_le_upper_bound; lia]).
  rewrite (to_uint_small (w / 2)) by lia.
  rewrite to_size_t_small, to_uint_small by lia. done.
Qed.

(** C10 (amended): the subtraction that yields [half] never wraps: the width computed
    by [size_columns] is at least the header's length, hence half the width
    is at least half the header's length, and [half] is their difference
    (header lengths representable as [unsigned int]). *)
Theorem half_never_wraps {Ts} (t : VariadicTable Ts) (stream : ostream) (i : nat) :
  table_inv t → Forall (fun h => size h <= UINT_MAX) (_headers t) →
  (i < length Ts)%nat →
  let t' := (print t stream).1 in
  ∃ w, _column_sizes t' !! i = Some w
       ∧ size (_headers t' !!! i) <= w
       ∧ size (_headers t' !!! i) / 2 <= w / 2
       ∧ half t' i = w / 2 - size (_headers t' !!! i) / 2
       ∧ 0 <= half t' i.
Proof.
  intros Hinv Hfit Hi t'. unfold t'. rewrite print_table.
  destruct (width_at_least_header t i Hinv Hi) as (w & Hw & Hlo & Hhi).
  assert (0 <= size (_headers t !!! i) <= UINT_MAX) as Hh.
  { split; [apply size_nonneg|]. rewrite Forall_forall in Hfit. apply Hfit.
    apply list_elem_of_lookup. exists i. apply list_lookup_lookup_total_lt.
    destruct Hinv. lia. }
  rewrite to_uint_small in Hlo by done.
  exists w. split; [done|]. split; [done|].
  destruct (half_no_wrap (size_columns t) i w Hw) as [Hhalf Hdiv]; [simpl; lia | done |].
  simpl in *. split; [done|]. rewrite Hhalf. unfold leading_spaces. split; [done | lia].
Qed.

Lemma centering_arith w len :
  0 <= len <= w →
  0 <= w / 2 - len / 2
  ∧ 0 <= w - (w / 2 - len / 2) - len
  ∧ (w - (w / 2 - len / 2) - len) - (w / 2 - len / 2) = w mod 2 - len mod 2.
Proof.
  intros H.
  pose proof (Z.div_mod w 2 ltac:(lia)). pose proof (Z.div_mod len 2 ltac:(lia)).
  pose proof (Z.mod_pos_bound w 2 ltac:(lia)).
  pose proof (Z.mod_pos_bound len 2 ltac:(lia)).
  lia.
Qed.


(** In range, the header field is the label centred by the code's rule. *)
Lemma header_cell_centered {Ts} (t : VariadicTable Ts) fill (i : nat) w :
  _column_sizes t !! i = Some w →
  0 <= size (_headers t !!! i) <= w → w <= INT_MAX →
  header_cell t fill i = centered w fill (_headers t !!! i).
Proof.
  intros Hw Hh Hb. unfold header_cell, centered, trailing_fill.
  destruct (half_no_wrap t i w Hw Hh) as [-> _]; [unfold INT_MAX, UINT_MAX in *; lia|].
  rewrite (list_lookup_total_correct _ _ _ Hw).
  rewrite to_int_small by lia.
  destruct (centering_arith w _ Hh) as (Hl & _).
  unfold field. rewrite size_app, size_string_fill by done.
  rewrite <- app_assoc. do 3 f_equal. lia.
Qed.

Lemma header_cells_centered {Ts} (t : VariadicTable Ts) fill :
  table_inv t → sizes_within INT_MAX t →
  header_cell (size_columns t) fill <$> columns (_num_columns t)
  = (fun i => centered (_column_sizes (size_columns t) !!! i) fill (_headers t !!! i))
      <$> columns (_num_columns t).
Proof.
  intros Hinv Hfit. apply list_fmap_ext. intros k i Hk.
  assert (i < length Ts)%nat as Hi.
  { apply list_elem_of_lookup_2, elem_of_seq in Hk. destruct Hinv. lia. }
  destruct (lookup_lt_is_Some_2 (_column_sizes (size_columns t)) i) as [w Hw];
    [by rewrite length_size_columns|].
  pose proof (width_within t INT_MAX i w Hinv ltac:(unfold INT_MAX, UINT_MAX; lia) Hfit Hw)
    as [Hlo Hhi].
  rewrite (list_lookup_total_correct _ _ _ Hw).
  apply (header_cell_centered (size_columns t) fill i w Hw); [|done].
  split; [apply size_nonneg | done].
Qed.

(** C5 (amended): in the header line every label is preceded by exactly
    [w / 2 - label_length / 2] spaces and followed by fill up to the width
    [w]; the free padding is split evenly when [w] and the label length have
    the same parity, the extra character falls on the right when [w] is odd
    and the label length even, and on the left when [w] is even and the
    label length odd. *)
Theorem header_labels_centered {Ts} (t : VariadicTable Ts) (stream : ostream)
    (fill : ascii) :
  table_inv t → sizes_within INT_MAX t →
  let t' := (print t stream).1 in
  header_line t' fill
  = bar ++ barred ((fun i => centered (_column_sizes t' !!! i) fill (_headers t !!! i))
                     <$> columns (_num_columns t))
  ∧ ∀ i, (i < length Ts)%nat →
      let w := _column_sizes t' !!! i in
      let label := _headers t !!! i in
      leading_spaces w label = w / 2 - size label / 2
      ∧ 0 <= leading_spaces w label
      ∧ 0 <= trailing_fill w label
      ∧ leading_spaces w label + size label + trailing_fill w label = w
      ∧ trailing_fill w label - leading_spaces w label = w mod 2 - size label mod 2.
Proof.
  intros Hinv Hfit t'. unfold t'. rewrite print_table. split.
  - rewrite header_line_cells. simpl _num_columns.
    by rewrite header_cells_centered.
  - intros i Hi.
    destruct (lookup_lt_is_Some_2 (_column_sizes (size_columns t)) i) as [w Hw];
      [by rewrite length_size_columns|].
    pose proof (width_within t INT_MAX i w Hinv ltac:(unfold INT_MAX, UINT_MAX; lia) Hfit Hw)
      as [Hlo Hhi].
    rewrite (list_lookup_total_correct _ _ _ Hw).
    set (label := _headers t !!! i) in *.
    assert (0 <= size label <= w) as Hl by (split; [apply size_nonneg | done]).
    destruct (centering_arith w (size label) Hl) as (H1 & H2 & H3).
    unfold trailing_fill, leading_spaces. repeat split; try done. lia.
Qed.

(** ** The cells of a data line *)

Lemma length_texts Ts : ∀ t, length (texts Ts t) = length Ts.
Proof. induction Ts as [|T Ts IH]; intros t; simpl; [done | by rewrite IH]. Qed.

Lemma length_row_cells Ts cs fill : ∀ I t, length (row_cells Ts cs fill I t) = length Ts.
Proof. induction Ts as [|T Ts IH]; intros I t; simpl; [done | by rewrite IH]. Qed.

Lemma row_cells_lookup Ts cs fill : ∀ I (row : DataTuple Ts) i T text,
  Ts !! i = Some T → texts Ts row !! i = Some text →
  row_cells Ts cs fill I row !! i
  = Some (field (to_int (cs !!! (I + i)%nat))
                (if is_arithmetic T then adjust_right else adjust_left) fill text).
Proof.
  induction Ts as [|T0 Ts IH]; intros I row i T text HT Htext; [done|].
  destruct i as [|i]; simpl in *.
  - injection HT as ->. injection Htext as ->. by rewrite Nat.add_0_r.
  - replace (I + S i)%nat with (S I + i)%nat by lia.
    exact (IH (S I) (snd row) i T text HT Htext).
Qed.

(** C4 (amended): in every data line the cell of column [i] is the value's text
    right-justified in the column's width when the declared column type is
    arithmetic and left-justified otherwise; which of the two is decided by
    the column type alone, for every row and every value (widths
    representable as [int]). *)
Theorem cells_justified_by_column_type {Ts} (t : VariadicTable Ts) (stream : ostream)
    (fill : ascii) (row : DataTuple Ts) :
  table_inv t → sizes_within INT_MAX t →
  let t' := (print t stream).1 in
  ∃ cells, data_line t' fill row = bar ++ barred cells
    ∧ length cells = length Ts
    ∧ ∀ i T text w,
        Ts !! i = Some T → texts Ts row !! i = Some text →
        _column_sizes t' !! i = Some w →
        cells !! i = Some (if is_arithmetic T
                           then right_justified w fill text
                           else left_justified w fill text).
Proof.
  intros Hinv Hfit t'. unfold t'. rewrite print_table.
  exists (row_cells Ts (_column_sizes (size_columns t)) fill 0 row).
  split; [apply data_line_cells|]. split; [apply length_row_cells|].
  intros i T text w HT Htext Hw.
  rewrite (row_cells_lookup _ _ _ _ _ _ _ _ HT Htext). simpl.
  rewrite (list_lookup_total_correct _ _ _ Hw).
  pose proof (width_within t INT_MAX i w Hinv ltac:(unfold INT_MAX, UINT_MAX; lia) Hfit Hw)
    as [Hlo Hhi].
  rewrite to_int_small by (pose proof (size_nonneg (_headers t !!! i)); lia).
  by destruct (is_arithmetic T).
Qed.

(** ** The width of the lines *)

Lemma size_barred cells :
  size (barred cells) = foldr Z.add 0 ((fun w => w + 1) <$> (size <$> cells)).
Proof.
  induction cells as [|cell cells IH]; [done|].
  rewrite barred_cons, !size_app, IH, !fmap_cons. simpl. unfold size at 2. simpl. lia.
Qed.

Lemma size_line cells : size (bar ++ barred cells) = line_width (size <$> cells).
Proof. rewrite size_app, size_barred. unfold line_width. done. Qed.

Lemma widths_within_int {Ts} (t : VariadicTable Ts) :
  table_inv t → sizes_within INT_MAX t →
  Forall (fun w => 0 <= w <= INT_MAX) (_column_sizes (size_columns t)).
Proof.
  intros Hinv Hfit. apply Forall_lookup. intros i w Hw.
  pose proof (width_within t INT_MAX i w Hinv ltac:(unfold INT_MAX, UINT_MAX; lia) Hfit Hw).
  pose proof (size_nonneg (_headers t !!! i)). lia.
Qed.


Lemma row_cell_sizes Ts cs fill (row : DataTuple Ts) :
  length cs = length Ts → Forall (fun w => 0 <= w <= INT_MAX) cs →
  size <$> row_cells Ts cs fill 0 row = zip_with Z.max cs (size <$> texts Ts row).
Proof.
  intros Hlen Hcs. apply list_eq. intros i.
  rewrite list_lookup_fmap, lookup_zip_with, list_lookup_fmap.
  destruct (decide (i < length Ts)%nat) as [Hi|Hi].
  - destruct (lookup_lt_is_Some_2 Ts i Hi) as [T HT].
    destruct (lookup_lt_is_Some_2 (texts Ts row) i) as [text Htext];
      [by rewrite length_texts|].
    destruct (lookup_lt_is_Some_2 cs i) as [w Hw]; [lia|].
    rewrite (row_cells_lookup _ _ _ _ _ _ _ _ HT Htext), Hw, Htext. simpl.
    rewrite (list_lookup_total_correct _ _ _ Hw), size_field.
    rewrite to_int_small; [done|].
    rewrite Forall_lookup in Hcs. by apply (Hcs i).
  - rewrite (lookup_ge_None_2 cs) by lia.
    rewrite lookup_ge_None_2; [done|]. rewrite length_row_cells. lia.
Qed.

Lemma total_width_loop (cs : list Z) : ∀ acc,
  0 <= acc → Forall (fun w => 0 <= w) cs → acc + foldr Z.add 0 cs <= UINT_MAX →
  foldl (fun total_width col_size => to_uint (total_width + col_size)) acc cs
  = acc + foldr Z.add 0 cs.
Proof.
  induction cs as [|c cs IH]; intros acc Hacc Hcs Hb; simpl in *; [lia|].
  apply Forall_cons in Hcs as [Hc Hcs].
  assert (0 <= foldr Z.add 0 cs) as Hsum.
  { clear -Hcs. induction Hcs; simpl; lia. }
  rewrite to_uint_small by lia. rewrite IH by (done || lia). lia.
Qed.

Lemma line_width_sum (cs : list Z) :
  line_width cs = Z.of_nat (length cs) + 1 + foldr Z.add 0 cs.
Proof.
  unfold line_width. induction cs as [|c cs IH]; simpl length; [done|].
  rewrite fmap_cons. simpl foldr. lia.
Qed.

Lemma total_width_line_width {Ts} (t : VariadicTable Ts) :
  _num_columns t = Z.of_nat (length (_column_sizes t)) →
  Forall (fun w => 0 <= w) (_column_sizes t) →
  line_width (_column_sizes t) <= UINT_MAX →
  total_width t = line_width (_column_sizes t).
Proof.
  intros Hn Hcs Hb. unfold total_width. rewrite line_width_sum in *.
  assert (0 <= foldr Z.add 0 (_column_sizes t)) as Hsum.
  { clear -Hcs. induction Hcs; simpl; lia. }
  rewrite Hn, to_uint_small by lia.
  apply total_width_loop; [lia | done | lia].
Qed.





(** ** The output in full *)

(** What [print] writes on a stream in any state: a width pending at the
    call pads the first rule and nothing else. *)
Lemma print_emits_any {Ts} (t : VariadicTable Ts) s :
  emits s (print t s).2
        (field (os_width s) (os_adjust s) (os_fill s) (rule (size_columns t)) ++ newline
         ++ header_line (size_columns t) (os_fill s) ++ newline
         ++ rule (size_columns t) ++ newline
         ++ concat ((fun row => data_line (size_columns t) (os_fill s) row ++ newline)
                      <$> _data t)
         ++ rule (size_columns t) ++ newline).
Proof.
  unfold print. cbv zeta. simpl snd.
  set (t' := size_columns t).
  assert (∀ s0, os_width s0 = 0 →
            emits s0 (s0 <<< put (rule t') <<< put newline) (rule t' ++ newline))
    as Hrule.
  { intros s0 H0. eapply emits_trans; [by apply put_emits|]. by apply put_emits. }
  assert (emits s (s <<< put (rule t') <<< put newline)
                (field (os_width s) (os_adjust s) (os_fill s) (rule t') ++ newline))
    as H1.
  { eapply (emits_trans s (put (rule t') s)); [done | by apply put_emits]. }
  set (s1 := s <<< put (rule t') <<< put newline) in *.
  assert (emits s1 (s1 <<< put bar <<< print_headers t' <<< put newline)
                (header_line t' (os_fill s) ++ newline)) as H2.
  { destruct H1 as (_ & Hw1 & <-).
    eapply emits_trans; [by apply header_line_emits|].
    apply put_emits. by apply (header_line_emits t' s1). }
  set (s2 := s1 <<< put bar <<< print_headers t' <<< put newline) in *.
  assert (os_width s2 = 0 ∧ os_fill s2 = os_fill s) as [Hw2 Hf2].
  { destruct H1 as (_ & _ & <-), H2 as (_ & ? & ?). done. }
  pose proof (Hrule s2 Hw2) as H3.
  set (s3 := s2 <<< put (rule t') <<< put newline) in *.
  assert (os_width s3 = 0 ∧ os_fill s3 = os_fill s) as [Hw3 Hf3].
  { destruct H3 as (_ & ? & ?). split; [done | congruence]. }
  pose proof (print_rows_emits t' s3 Hw3) as H4. rewrite Hf3 in H4.
  set (s4 := print_rows t' s3) in *.
  assert (os_width s4 = 0) as Hw4 by apply H4.
  pose proof (Hrule s4 Hw4) as H5.
  pose proof (emits_trans _ _ _ _ _ H1
               (emits_trans _ _ _ _ _ H2
                 (emits_trans _ _ _ _ _ H3 (emits_trans _ _ _ _ _ H4 H5)))) as Hall.
  rewrite <- !app_assoc in Hall. exact Hall.
Qed.

(** The cells of a data line, whatever the widths: each value's text in a
    field of the width [std::setw] receives, flush right for an arithmetic
    column type and flush left otherwise. *)
Lemma data_line_justified {Ts} (t : VariadicTable Ts) fill (row : DataTuple Ts) :
  ∃ cells, data_line t fill row = bar ++ barred cells
    ∧ length cells = length Ts
    ∧ ∀ j T text,
        Ts !! j = Some T → texts Ts row !! j = Some text →
        cells !! j = Some (if is_arithmetic T
                           then right_justified (to_int (_column_sizes t !!! j)) fill text
                           else left_justified (to_int (_column_sizes t !!! j)) fill text).
Proof.
  exists (row_cells Ts (_column_sizes t) fill 0 row).
  split; [apply data_line_cells|]. split; [apply length_row_cells|].
  intros j T text HT Htext.
  rewrite (row_cells_lookup _ _ _ _ _ _ _ _ HT Htext). simpl.
  by destruct (is_arithmetic T).
Qed.

(** C7: [addRow] appends its row at the end of the stored sequence, and
    [print] writes one data line per stored row, in the order of the
    [addRow] calls: the line at the position of the [i]-th row added is a
    bar followed, column by column, by the text of that row's value,
    justified in the field [std::setw] was given, and a bar. *)
Theorem rows_render_in_order {Ts} (t0 : VariadicTable Ts) (rows : list (DataTuple Ts))
    (stream : ostream) :
  let t := foldl (fun t row => addRow row t) t0 rows in
  let t' := (print t stream).1 in
  let fill := os_fill stream in
  (∀ (u : VariadicTable Ts) row, _data (addRow row u) = _data u ++ [row])
  ∧ _data t = _data t0 ++ rows
  ∧ ∃ lines : list std_string,
      os_chars (print t stream).2
      = os_chars stream
        ++ field (os_width stream) (os_adjust stream) fill (rule t') ++ newline
        ++ header_line t' fill ++ newline
        ++ rule t' ++ newline
        ++ concat ((fun line => line ++ newline) <$> lines)
        ++ rule t' ++ newline
      ∧ length lines = length (_data t0 ++ rows)
      ∧ ∀ i row, rows !! i = Some row →
          ∃ cells, lines !! (length (_data t0) + i)%nat = Some (bar ++ barred cells)
            ∧ length cells = length Ts
            ∧ ∀ j T text,
                Ts !! j = Some T → texts Ts row !! j = Some text →
                cells !! j
                = Some (if is_arithmetic T
                        then right_justified (to_int (_column_sizes t' !!! j)) fill text
                        else left_justified (to_int (_column_sizes t' !!! j)) fill text).
Proof.
  intros t t' fill. pose proof (data_after_rows rows t0) as Hdata. fold t in Hdata.
  split; [done|]. split; [exact Hdata|].
  exists (data_line t' fill <$> _data t). split; [|split].
  - destruct (print_emits_any t stream) as (-> & _).
    by rewrite <- list_fmap_compose.
  - by rewrite length_fmap, Hdata.
  - intros i row Hrow.
    destruct (data_line_justified t' fill row) as (cells & Hline & Hlen & Hcells).
    exists cells. split; [|done].
    rewrite Hdata, list_lookup_fmap, lookup_app_r, Nat.add_comm, Nat.add_sub by lia.
    by rewrite Hrow, <- Hline.
Qed.

(** C8 (amended): on a stream whose pending field width does not exceed the
    table width [W = 1 + Σ (w_i + 1)], [print] writes a rule of [W] dashes,
    the header line (a bar, then each label centred in its column and a
    bar), the same rule, one line per stored row in order (a bar, then each
    value's text justified in its column and a bar), and the same rule once
    more, each ended by a newline; with no rows it writes the three rules
    and the header line, and the widths are the header lengths (lengths
    representable as [int], [W] as [unsigned int]). *)
Theorem print_layout {Ts} (t : VariadicTable Ts) (stream : ostream) :
  table_inv t → sizes_within INT_MAX t →
  line_width (_column_sizes (print t stream).1) <= UINT_MAX →
  os_width stream <= line_width (_column_sizes (print t stream).1) →
  let widths := _column_sizes (print t stream).1 in
  let fill := os_fill stream in
  let rule_line := string_fill (line_width widths) dash in
  let header :=
    bar ++ barred ((fun i => centered (widths !!! i) fill (_headers t !!! i))
                     <$> columns (_num_columns t)) in
  ∃ lines : list std_string,
    os_chars (print t stream).2
    = os_chars stream
      ++ rule_line ++ newline
      ++ header ++ newline
      ++ rule_line ++ newline
      ++ concat ((fun line => line ++ newline) <$> lines)
      ++ rule_line ++ newline
    ∧ length lines = length (_data t)
    ∧ (∀ i row, _data t !! i = Some row →
         ∃ cells, lines !! i = Some (bar ++ barred cells)
           ∧ length cells = length Ts
           ∧ ∀ j T text,
               Ts !! j = Some T → texts Ts row !! j = Some text →
               cells !! j = Some (if is_arithmetic T
                                  then right_justified (widths !!! j) fill text
                                  else left_justified (widths !!! j) fill text))
    ∧ (_data t = [] →
       widths = size <$> _headers t
       ∧ os_chars (print t stream).2
         = os_chars stream
           ++ rule_line ++ newline
           ++ header ++ newline
           ++ rule_line ++ newline
           ++ rule_line ++ newline).
Proof.
  intros Hinv Hfit. rewrite print_table. intros Hb Hw widths fill rule_line header.
  pose proof (widths_within_int t Hinv Hfit) as Hcs.
  pose proof (length_size_columns t Hinv) as Hlen.
  assert (rule (size_columns t) = rule_line) as Hrule.
  { unfold rule, rule_line, widths. f_equal. apply total_width_line_width; [| |done].
    - rewrite Hlen. apply Hinv.
    - eapply Forall_impl; [exact Hcs|]. simpl. lia. }
  assert (0 <= line_width widths) as Hpos.
  { unfold widths. rewrite line_width_sum.
    assert (0 <= foldr Z.add 0 (_column_sizes (size_columns t))); [|lia].
    clear -Hcs. induction Hcs; simpl; lia. }
  assert (header_line (size_columns t) fill = header) as Hheader.
  { rewrite header_line_cells. change (_num_columns (size_columns t)) with (_num_columns t).
    by rewrite header_cells_centered. }
  assert (os_chars (print t stream).2
          = os_chars stream
            ++ rule_line ++ newline ++ header ++ newline ++ rule_line ++ newline
            ++ concat ((fun line => line ++ newline)
                         <$> (data_line (size_columns t) fill <$> _data t))
            ++ rule_line ++ newline) as Hout.
  { destruct (print_emits_any t stream) as (-> & _).
    change (os_fill stream) with fill.
    rewrite Hrule, Hheader, <- list_fmap_compose.
    rewrite field_unpadded; [done|].
    unfold rule_line. by rewrite size_string_fill. }
  exists (data_line (size_columns t) fill <$> _data t).
  split; [exact Hout|]. split; [apply length_fmap|]. split.
  - intros i row Hrow.
    destruct (data_line_justified (size_columns t) fill row)
      as (cells & Hline & Hlenc & Hcells).
    exists cells. split; [by rewrite list_lookup_fmap, Hrow, <- Hline|].
    split; [done|]. intros j T text HT Htext.
    rewrite (Hcells j T text HT Htext).
    assert (j < length Ts)%nat as Hj by (by eapply lookup_lt_Some).
    destruct (lookup_lt_is_Some_2 (_column_sizes (size_columns t)) j) as [w Hwj]; [lia|].
    rewrite Forall_lookup in Hcs. specialize (Hcs j w Hwj).
    unfold widths.
    rewrite (list_lookup_total_correct _ _ _ Hwj), to_int_small by done. done.
  - intros Hd. split.
    + apply size_columns_no_rows; [done | done |].
      destruct Hfit as [Hh _]. eapply Forall_impl; [exact Hh|].
      simpl. unfold INT_MAX, UINT_MAX. lia.
    + rewrite Hout, Hd. done.
Qed.

(** C6 (amended): two calls of [print] in a row, with no [addRow] in
    between, write the same characters exactly when the field width pending
    on the stream at the first call does not exceed the length of the rule;
    the second pass computes the widths anew and arrives at the same ones,
    whatever widths were stored before. *)
Theorem print_twice_same_output {Ts} (t : VariadicTable Ts) (stream : ostream) :
  let first := print t stream in
  let second := print first.1 first.2 in
  (written stream first.2 = written first.2 second.2
   ↔ os_width stream <= size (rule first.1))
  ∧ _column_sizes second.1 = _column_sizes first.1
  ∧ ∀ stale, _column_sizes (print
                {| _headers := _headers t; _num_columns := _num_columns t;
                   _static_column_size := _static_column_size t;
                   _data := _data t; _column_sizes := stale |} stream).1
             = _column_sizes first.1.
Proof.
  intros first second.
  pose proof (print_emits_any t stream) as H1.
  pose proof (print_emits first.1 first.2 (print_width t stream)) as H2.
  fold first in H1. fold second in H2.
  assert (os_fill first.2 = os_fill stream) as Hfill by apply H1.
  rewrite Hfill in H2. unfold first in H2 at 2 3 4 5 6 7.
  rewrite !print_table, !size_columns_idem in H2.
  change (_data (size_columns t)) with (_data t) in H2.
  rewrite (emits_written _ _ _ H1), (emits_written _ _ _ H2).
  unfold first at 1. rewrite print_table.
  split; [|split].
  - split.
    + intros Heq. apply (f_equal size) in Heq.
      rewrite !size_app, size_field in Heq. lia.
    + intros Hle. by rewrite field_unpadded.
  - unfold second, first. by rewrite !print_table, size_columns_idem.
  - intros stale. unfold first. rewrite !print_table. by rewrite (size_columns_fresh t).
Qed.

(** * Examples *)

Example no_people_constructed :
  VariadicTable_ctor person_columns person_headers 0 = Constructed no_people.
Proof. reflexivity. Qed.

Example no_numbers_constructed :
  VariadicTable_ctor [int_col] [lit "A"] 0 = Constructed no_numbers.
Proof. reflexivity. Qed.

Example no_ages_constructed :
  VariadicTable_ctor [string_col] [lit "Age"] 0 = Constructed no_ages.
Proof. reflexivity. Qed.

Example people_reachable : reachable people.
Proof.
  do 2 apply reachable_addRow.
  apply (reachable_ctor person_headers 0); [vm_compute; discriminate | reflexivity].
Qed.

Example too_few_headers :
  VariadicTable_ctor person_columns [lit "Name"; lit "Age"] 0
  = Aborted (lit "Number of headers must match number of columns!").
Proof. reflexivity. Qed.

Example people_printed :
  string_of_list_ascii (os_chars (print people fresh_stream).2)
  = "-----------------------
|  Name   |Age|Brother|
-----------------------
|Fred     | 35|Sam    |
|Alexander| -7|Sam    |
-----------------------
"%string.
Proof. vm_compute. reflexivity. Qed.

Example people_widths : _column_sizes (print people fresh_stream).1 = [9; 3; 7].
Proof. vm_compute. reflexivity. Qed.

Example numbers_printed :
  string_of_list_ascii (os_chars (print numbers fresh_stream).2)
  = "---
|A|
---
|12345|
---
"%string.
Proof. vm_compute. reflexivity. Qed.

Example ages_printed :
  string_of_list_ascii (os_chars (print ages fresh_stream).2)
  = "------
| Age|
------
|abcd|
------
"%string.
Proof. vm_compute. reflexivity. Qed.

(** * The claims at concrete tables *)

(** The width of the first column of [people]. *)
Lemma column_width_is_maximum_witness :
  table_inv people ∧ sizes_within UINT_MAX people ∧ (0 < length person_columns)%nat
  ∧ ∃ w, _column_sizes (print people fresh_stream).1 !! 0%nat = Some w
         ∧ is_maximum w (size (_headers people !!! 0%nat)
                           :: column_display_lengths people 0).
Proof.
  assert (table_inv people) as Hinv by (split; reflexivity).
  assert (sizes_within UINT_MAX people) as Hfit by in_range.
  assert (0 < length person_columns)%nat as Hi by (simpl; lia).
  split; [assumption|]. split; [assumption|]. split; [assumption|].
  exact (column_width_is_maximum people fresh_stream 0 Hinv Hfit Hi).
Defined.



(** The constructor on three columns and three headers. *)
Lemma constructor_aborts_iff_mismatch_witness :
  Z.of_nat (length person_columns) <= UINT_MAX
  ∧ (((∃ message, VariadicTable_ctor person_columns person_headers 0 = Aborted message)
        ↔ length person_headers ≠ length person_columns)
     ∧ (length person_headers = length person_columns →
        ∃ t, VariadicTable_ctor person_columns person_headers 0 = Constructed t
             ∧ _headers t = person_headers
             ∧ _static_column_size t = 0
             ∧ _data t = [])).
Proof.
  assert (Z.of_nat (length person_columns) <= UINT_MAX) as Hfit
    by (vm_compute; discriminate).
  split; [assumption|].
  exact (constructor_aborts_iff_mismatch person_columns person_headers 0 Hfit).
Defined.

(** The cells of the row [fred]. *)
Lemma cells_justified_by_column_type_witness :
  table_inv people ∧ sizes_within INT_MAX people
  ∧ ∃ cells, data_line (print people fresh_stream).1 space fred = bar ++ barred cells
      ∧ length cells = length person_columns
      ∧ ∀ i T text w,
          person_columns !! i = Some T → texts person_columns fred !! i = Some text →
          _column_sizes (print people fresh_stream).1 !! i = Some w →
          cells !! i = Some (if is_arithmetic T
                             then right_justified w space text
                             else left_justified w space text).
Proof.
  assert (table_inv people) as Hinv by (split; reflexivity).
  assert (sizes_within INT_MAX people) as Hfit by in_range.
  split; [assumption|]. split; [assumption|].
  exact (cells_justified_by_column_type people fresh_stream space fred Hinv Hfit).
Defined.

(** C5, as stated, fails: a three-letter label in a column four wide gets
    its one spare character on the left. *)
Lemma header_extra_space_on_the_left :
  _column_sizes (print ages fresh_stream).1 = [4]
  ∧ _headers ages = [lit "Age"]
  ∧ header_line (print ages fresh_stream).1 space = lit "| Age|"
  ∧ leading_spaces 4 (lit "Age") = 1
  ∧ trailing_fill 4 (lit "Age") = 0.
Proof. repeat split; vm_compute; reflexivity. Qed.

(** The header line of [people]. *)
Lemma header_labels_centered_witness :
  table_inv people ∧ sizes_within INT_MAX people
  ∧ (header_line (print people fresh_stream).1 space
     = bar ++ barred ((fun i => centered (_column_sizes (print people fresh_stream).1 !!! i)
                                      space (_headers people !!! i))
                        <$> columns (_num_columns people))
     ∧ ∀ i, (i < length person_columns)%nat →
         let w := _column_sizes (print people fresh_stream).1 !!! i in
         let label := _headers people !!! i in
         leading_spaces w label = w / 2 - size label / 2
         ∧ 0 <= leading_spaces w label
         ∧ 0 <= trailing_fill w label
         ∧ leading_spaces w label + size label + trailing_fill w label = w
         ∧ trailing_fill w label - leading_spaces w label = w mod 2 - size label mod 2).
Proof.
  assert (table_inv people) as Hinv by (split; reflexivity).
  assert (sizes_within INT_MAX people) as Hfit by in_range.
  split; [assumption|]. split; [assumption|].
  exact (header_labels_centered people fresh_stream space Hinv Hfit).
Defined.

(** [half] for the first column of [people]. *)
Lemma half_never_wraps_witness :
  table_inv people ∧ Forall (fun h => size h <= UINT_MAX) (_headers people)
  ∧ (0 < length person_columns)%nat
  ∧ ∃ w, _column_sizes (print people fresh_stream).1 !! 0%nat = Some w
         ∧ size (_headers (print people fresh_stream).1 !!! 0%nat) <= w
         ∧ size (_headers (print people fresh_stream).1 !!! 0%nat) / 2 <= w / 2
         ∧ half (print people fresh_stream).1 0
           = w / 2 - size (_headers (print people fresh_stream).1 !!! 0%nat) / 2
         ∧ 0 <= half (print people fresh_stream).1 0.
Proof.
  assert (table_inv people) as Hinv by (split; reflexivity).
  assert (Forall (fun h => size h <= UINT_MAX) (_headers people)) as Hfit by in_range.
  assert (0 < length person_columns)%nat as Hi by (simpl; lia).
  split; [assumption|]. split; [assumption|]. split; [assumption|].
  exact (half_never_wraps people fresh_stream 0 Hinv Hfit Hi).
Defined.

(** A value longer than [UINT_MAX] is measured modulo 2^32. *)
Lemma name_table_width (value : std_string) (stream : ostream) :
  size value = 4294967299 →
  table_inv (name_table value)
  ∧ size (_headers (name_table value) !!! 0%nat) = 4
  ∧ column_display_lengths (name_table value) 0 = [4294967299]
  ∧ _column_sizes (print (name_table value) stream).1 !! 0%nat = Some 4.
Proof.
  intros Hsize. assert (table_inv (name_table value)) as Hinv by (split; reflexivity).
  split; [exact Hinv|]. split; [reflexivity|]. split.
  - unfold column_display_lengths. simpl. unfold display_length. simpl.
    by rewrite Hsize.
  - rewrite print_table, size_columns_lookup by (done || (simpl; lia)).
    simpl. unfold sizeOfData. simpl. rewrite Hsize. reflexivity.
Qed.

(** C1, as stated, fails: a [std::string] value of 2^32 + 3 characters under
    the header ["Name"] has display length 4294967299, yet the width
    computed is 4, the value's length having been stored as 3. *)
Lemma long_value_is_undersized :
  table_inv (name_table long_text)
  ∧ size (_headers (name_table long_text) !!! 0%nat) = 4
  ∧ column_display_lengths (name_table long_text) 0 = [4294967299]
  ∧ _column_sizes (print (name_table long_text) fresh_stream).1 !! 0%nat = Some 4.
Proof.
  apply name_table_width. unfold long_text. apply size_string_fill. discriminate.
Qed.

(** C4, as stated, fails: with the fallback width 2^31 the columns of
    [VariadicTable<int, int>] are 2147483648 wide, [std::setw] receives a
    negative [int], and the values are written without any padding. *)
Lemma wide_fallback_is_not_justified :
  VariadicTable_ctor [int_col; int_col] [lit "A"; lit "B"] 2147483648
  = Constructed no_wide_fallback
  ∧ _column_sizes (print wide_fallback fresh_stream).1 = [2147483648; 2147483648]
  ∧ to_int 2147483648 = -2147483648
  ∧ data_line (print wide_fallback fresh_stream).1 space wide_fallback_row
    = lit "|35|-7|".
Proof.
  split; [reflexivity|]. rewrite print_table. repeat split; vm_compute; reflexivity.
Qed.

(** C6, as stated, fails: with a field width of 30 pending, the first call
    pads its first rule and the second call does not. *)
Lemma pending_width_pads_first_print_only :
  os_width pending_stream = 30
  ∧ string_of_list_ascii (written pending_stream (print people pending_stream).2)
    = "       -----------------------
|  Name   |Age|Brother|
-----------------------
|Fred     | 35|Sam    |
|Alexander| -7|Sam    |
-----------------------
"%string
  ∧ string_of_list_ascii
      (written (print people pending_stream).2
               (print (print people pending_stream).1 (print people pending_stream).2).2)
    = "-----------------------
|  Name   |Age|Brother|
-----------------------
|Fred     | 35|Sam    |
|Alexander| -7|Sam    |
-----------------------
"%string.
Proof. repeat split; vm_compute; reflexivity. Qed.

(** [people] printed twice on a fresh stream. *)
Lemma print_twice_same_output_witness :
  os_width fresh_stream <= size (rule (print people fresh_stream).1)
  ∧ written fresh_stream (print people fresh_stream).2
    = written (print people fresh_stream).2
              (print (print people fresh_stream).1 (print people fresh_stream).2).2.
Proof.
  assert (os_width fresh_stream <= size (rule (print people fresh_stream).1)) as Hle
    by (vm_compute; discriminate).
  split; [assumption|].
  exact (proj2 (proj1 (print_twice_same_output people fresh_stream)) Hle).
Defined.

(** C8, as stated, fails: with a field width of 30 pending, the first rule
    line is twelve fill characters longer than the second and the third. *)
Lemma pending_width_pads_first_rule :
  os_width pending_stream = 30
  ∧ line_width (_column_sizes (print no_people pending_stream).1) = 18
  ∧ os_chars (print no_people pending_stream).2
    = (string_fill 12 space ++ string_fill 18 dash) ++ newline
      ++ lit "|Name|Age|Brother|" ++ newline
      ++ string_fill 18 dash ++ newline
      ++ string_fill 18 dash ++ newline.
Proof. repeat split; vm_compute; reflexivity. Qed.

(** [people] printed on a fresh stream. *)
Lemma print_layout_witness :
  table_inv people ∧ sizes_within INT_MAX people
  ∧ line_width (_column_sizes (print people fresh_stream).1) <= UINT_MAX
  ∧ os_width fresh_stream <= line_width (_column_sizes (print people fresh_stream).1)
  ∧ (let widths := _column_sizes (print people fresh_stream).1 in
     let fill := os_fill fresh_stream in
     let rule_line := string_fill (line_width widths) dash in
     let header :=
       bar ++ barred ((fun i => centered (widths !!! i) fill (_headers people !!! i))
                        <$> columns (_num_columns people)) in
     ∃ lines : list std_string,
       os_chars (print people fresh_stream).2
       = os_chars fresh_stream
         ++ rule_line ++ newline
         ++ header ++ newline
         ++ rule_line ++ newline
         ++ concat ((fun line => line ++ newline) <$> lines)
         ++ rule_line ++ newline
       ∧ length lines = length (_data people)
       ∧ (∀ i row, _data people !! i = Some row →
            ∃ cells, lines !! i = Some (bar ++ barred cells)
              ∧ length cells = length person_columns
              ∧ ∀ j T text,
                  person_columns !! j = Some T →
                  texts person_columns row !! j = Some text →
                  cells !! j = Some (if is_arithmetic T
                                     then right_justified (widths !!! j) fill text
                                     else left_justified (widths !!! j) fill text))
       ∧ (_data people = [] →
          widths = size <$> _headers people
          ∧ os_chars (print people fresh_stream).2
            = os_chars fresh_stream
              ++ rule_line ++ newline
              ++ header ++ newline
              ++ rule_line ++ newline
              ++ rule_line ++ newline)).
Proof.
  assert (table_inv people) as Hinv by (split; reflexivity).
  assert (sizes_within INT_MAX people) as Hfit by in_range.
  assert (line_width (_column_sizes (print people fresh_stream).1) <= UINT_MAX) as Hb
    by (vm_compute; discriminate).
  assert (os_width fresh_stream
          <= line_width (_column_sizes (print people fresh_stream).1)) as Hw
    by (vm_compute; discriminate).
  split; [assumption|]. split; [assumption|]. split; [assumption|].
  split; [assumption|].
  exact (print_layout people fresh_stream Hinv Hfit Hb Hw).
Defined.

(** A header longer than [UINT_MAX] is measured modulo 2^32, and [half]
    wraps. *)
Lemma headed_table_half (label : std_string) (stream : ostream) :
  size label = 4294967296 →
  table_inv (headed_table label)
  ∧ size (_headers (headed_table label) !!! 0%nat) = 4294967296
  ∧ _column_sizes (print (headed_table label) stream).1 !! 0%nat = Some 0
  ∧ half (print (headed_table label) stream).1 0 = 2147483648.
Proof.
  intros Hsize. assert (table_inv (headed_table label)) as Hinv by (split; reflexivity).
  assert (_column_sizes (size_columns (headed_table label)) !! 0%nat = Some 0) as Hw.
  { rewrite size_columns_lookup by (done || (simpl; lia)). simpl.
    rewrite Hsize. reflexivity. }
  split; [exact Hinv|]. split; [exact Hsize|]. rewrite print_table.
  split; [exact Hw|]. unfold half.
  rewrite (list_lookup_total_correct _ _ _ Hw).
  change (_headers (size_columns (headed_table label)) !!! 0%nat) with label.
  rewrite Hsize. reflexivity.
Qed.

(** C10, as stated, fails: under a header of 2^32 characters the width
    stored is 0, smaller than the header's length, and [half] wraps around
    to 2147483648. *)
Lemma long_header_wraps_half :
  table_inv (headed_table long_label)
  ∧ size (_headers (headed_table long_label) !!! 0%nat) = 4294967296
  ∧ _column_sizes (print (headed_table long_label) fresh_stream).1 !! 0%nat = Some 0
  ∧ half (print (headed_table long_label) fresh_stream).1 0 = 2147483648.
Proof.
  apply headed_table_half. unfold long_label. apply size_string_fill. discriminate.
Qed.

(** * Further properties of the sizing pass *)

Lemma foldl_addRow_fields {Ts} (rows : list (DataTuple Ts)) : ∀ t : VariadicTable Ts,
  _headers (foldl (fun t row => addRow row t) t rows) = _headers t
  ∧ _num_columns (foldl (fun t row => addRow row t) t rows) = _num_columns t
  ∧ _static_column_size (foldl (fun t row => addRow row t) t rows)
    = _static_column_size t.
Proof.
  induction rows as [|row rows IH]; intros t; simpl; [done|].
  destruct (IH (addRow row t)) as (-> & -> & ->). done.
Qed.

Lemma foldl_addRow_inv {Ts} (rows : list (DataTuple Ts)) (t : VariadicTable Ts) :
  table_inv t → table_inv (foldl (fun t row => addRow row t) t rows).
Proof.
  intros [Hn Hh]. destruct (foldl_addRow_fields rows t) as (H1 & H2 & _).
  unfold table_inv. by rewrite H1, H2.
Qed.

Lemma foldl_max_perm (l l' : list Z) :
  l ≡ₚ l' → ∀ x, foldl Z.max x l = foldl Z.max x l'.
Proof.
  induction 1 as [|a l l' _ IH|a b l|l1 l2 l3 _ IH1 _ IH2]; intros x; simpl.
  - done.
  - apply IH.
  - f_equal. lia.
  - by rewrite IH1.
Qed.

Lemma foldl_max_le (l : list Z) : ∀ x, x <= foldl Z.max x l.
Proof.
  induction l as [|a l IH]; intros x; simpl; [lia|].
  etrans; [|apply IH]. lia.
Qed.

(** X1: [size_each] overwrites the first [tuple_size] entries of the vector
    with the sizes of the row's values, each stored as an [unsigned int],
    whatever the entries held before; entries beyond them and the length of
    the vector are left as they were. *)
Theorem size_each_overwrites_prefix {Ts} (static_column_size : Z) (t : DataTuple Ts)
    (sizes rest : list Z) :
  length sizes = length Ts →
  size_each static_column_size t (sizes ++ rest)
  = cell_sizes Ts static_column_size t ++ rest
  ∧ length (size_each static_column_size t (sizes ++ rest)) = length (sizes ++ rest)
  ∧ Forall (fun n => 0 <= n <= UINT_MAX) (cell_sizes Ts static_column_size t).
Proof.
  intros Hlen.
  assert (size_each static_column_size t (sizes ++ rest)
          = cell_sizes Ts static_column_size t ++ rest) as Heq.
  { apply list_eq. intros j. unfold size_each.
    rewrite size_each_at_lookup by (rewrite length_app; lia).
    case_decide as Hj.
    - rewrite Nat.sub_0_r, lookup_app_l; [done|]. rewrite length_cell_sizes. lia.
    - rewrite !lookup_app_r by (rewrite ?length_cell_sizes; lia).
      by rewrite length_cell_sizes, Hlen. }
  split; [exact Heq|]. split.
  - rewrite Heq, !length_app, length_cell_sizes. lia.
  - apply Forall_lookup. intros i x. apply cell_sizes_range.
Qed.

(** X2: printing after [addRow] computes, for every column, the larger of
    the width computed before and the new row's size in that column; no
    width ever shrinks when a row is added. *)
Theorem widths_after_addRow {Ts} (t : VariadicTable Ts) (row : DataTuple Ts)
    (stream : ostream) :
  table_inv t →
  _column_sizes (print (addRow row t) stream).1
  = zip_with Z.max (_column_sizes (print t stream).1)
                   (cell_sizes Ts (_static_column_size t) row)
  ∧ ∀ i w, _column_sizes (print t stream).1 !! i = Some w →
      ∃ w', _column_sizes (print (addRow row t) stream).1 !! i = Some w' ∧ w <= w'.
Proof.
  intros Hinv. rewrite !print_table.
  assert (_column_sizes (size_columns (addRow row t))
          = zip_with Z.max (_column_sizes (size_columns t))
                     (cell_sizes Ts (_static_column_size t) row)) as Heq.
  { apply list_eq. intros i. rewrite lookup_zip_with.
    destruct (decide (i < length Ts)%nat) as [Hi|Hi].
    - rewrite (size_columns_lookup (addRow row t)), (size_columns_lookup t) by done.
      simpl. rewrite fmap_app, foldl_app. simpl.
      destruct (lookup_lt_is_Some_2 (cell_sizes Ts (_static_column_size t) row) i)
        as [c Hc]; [by rewrite length_cell_sizes|].
      by rewrite Hc, (list_lookup_total_correct _ _ _ Hc).
    - rewrite (lookup_ge_None_2 (_column_sizes (size_columns (addRow row t))))
        by (rewrite length_size_columns by done; lia).
      rewrite (lookup_ge_None_2 (_column_sizes (size_columns t)))
        by (rewrite length_size_columns by done; lia).
      done. }
  split; [exact Heq|]. intros i w Hw. rewrite Heq, lookup_zip_with, Hw. simpl.
  assert (i < length Ts)%nat as Hi.
  { apply lookup_lt_Some in Hw. by rewrite length_size_columns in Hw. }
  destruct (lookup_lt_is_Some_2 (cell_sizes Ts (_static_column_size t) row) i)
    as [c Hc]; [by rewrite length_cell_sizes|].
  rewrite Hc. simpl. eexists; split; [done | lia].
Qed.

(** X3: the widths do not depend on the order in which the rows were added:
    two sequences of [addRow] calls with the same rows in any order lead to
    the same widths. *)
Theorem widths_ignore_row_order {Ts} (t : VariadicTable Ts)
    (rows rows' : list (DataTuple Ts)) (stream : ostream) :
  table_inv t → rows ≡ₚ rows' →
  _column_sizes (print (foldl (fun t row => addRow row t) t rows) stream).1
  = _column_sizes (print (foldl (fun t row => addRow row t) t rows') stream).1.
Proof.
  intros Hinv Hperm. rewrite !print_table. apply list_eq. intros i.
  destruct (decide (i < length Ts)%nat) as [Hi|Hi].
  - rewrite !size_columns_lookup by (done || by apply foldl_addRow_inv).
    rewrite !data_after_rows.
    destruct (foldl_addRow_fields rows t) as (-> & _ & ->).
    destruct (foldl_addRow_fields rows' t) as (-> & _ & ->).
    f_equal. apply foldl_max_perm. by rewrite Hperm.
  - rewrite !lookup_ge_None_2;
      [done | rewrite length_size_columns by (by apply foldl_addRow_inv); lia ..].
Qed.

(** * Further properties of reachable tables *)

(** X4: a table built by the constructor and changed by [addRow] and [print]
    only has one header per column, and the sizing pass leaves one width per
    column; so every index [i < _num_columns] that [size_columns] and [print]
    use on [_headers] and [_column_sizes] is in range, and each width is an
    [unsigned int] no smaller than the stored header length. *)
Theorem reachable_tables_index_in_range {Ts} (t : VariadicTable Ts) (stream : ostream) :
  reachable t →
  table_inv t
  ∧ length (_column_sizes (print t stream).1) = Z.to_nat (_num_columns t)
  ∧ ∀ i, i ∈ columns (_num_columns t) →
      is_Some (_headers t !! i)
      ∧ ∃ w, _column_sizes (print t stream).1 !! i = Some w
             ∧ to_uint (size (_headers t !!! i)) <= w <= UINT_MAX.
Proof.
  intros Hreach. pose proof (reachable_inv t Hreach) as Hinv.
  split; [exact Hinv|]. rewrite print_table. destruct Hinv as [Hn Hh]. split.
  - rewrite length_size_columns by done. lia.
  - intros i Hi. apply elem_of_seq in Hi. split.
    + apply lookup_lt_is_Some_2. lia.
    + apply width_at_least_header; [done | lia].
Qed.

(** * Further properties of the stream *)

Lemma extends_refl s : extends s s.
Proof. split; [exists []; by rewrite app_nil_r | done]. Qed.

Lemma extends_trans s1 s2 s3 : extends s1 s2 → extends s2 s3 → extends s1 s3.
Proof.
  intros [[a Ha] Hf1] [[b Hb] Hf2]. split.
  - exists (a ++ b). by rewrite Hb, Ha, app_assoc.
  - congruence.
Qed.

Lemma put_extends text s : extends s (put text s).
Proof. split; [by eexists | done]. Qed.

Lemma setw_extends w s : extends s (setw w s).
Proof. split; [exists []; simpl; by rewrite app_nil_r | done]. Qed.

Lemma std_left_extends s : extends s (std_left s).
Proof. split; [exists []; simpl; by rewrite app_nil_r | done]. Qed.

Lemma justify_extends T s : extends s (justify T s).
Proof.
  unfold justify.
  destruct (is_arithmetic T); (split; [exists []; simpl; by rewrite app_nil_r | done]).
Qed.

Lemma foldl_extends {A} (f : ostream → A → ostream) (l : list A) :
  (∀ s x, extends s (f s x)) → ∀ s, extends s (foldl f s l).
Proof.
  intros Hf. induction l as [|x l IH]; intros s; simpl; [apply extends_refl|].
  eapply extends_trans; [apply Hf | apply IH].
Qed.

Lemma print_each_at_extends Ts column_sizes : ∀ I (t : DataTuple Ts) s,
  extends s (print_each_at Ts column_sizes I t s).
Proof.
  induction Ts as [|T Ts IH]; intros I t s; simpl; [apply extends_refl|].
  eapply extends_trans; [|apply IH].
  eapply extends_trans; [|apply put_extends].
  eapply extends_trans; [|apply put_extends].
  eapply extends_trans; [apply setw_extends | apply justify_extends].
Qed.

(** X5: whatever state the stream is in, [print] only appends to it: the
    characters written before the call stay in place at the front, the fill
    character is the caller's, and no field width is left pending. *)
Theorem print_only_appends {Ts} (t : VariadicTable Ts) (stream : ostream) :
  (∃ text, os_chars (print t stream).2 = os_chars stream ++ text)
  ∧ os_fill (print t stream).2 = os_fill stream
  ∧ os_width (print t stream).2 = 0.
Proof.
  assert (extends stream (print t stream).2) as [Hchars Hfill]; [|done].
  unfold print. cbv zeta. simpl snd.
  assert (∀ text s, extends s (s <<< put text <<< put newline)) as Hline.
  { intros text s. eapply extends_trans; apply put_extends. }
  eapply extends_trans; [|apply Hline].
  eapply extends_trans; [|apply foldl_extends].
  - eapply extends_trans; [|apply Hline].
    eapply extends_trans; [|apply put_extends].
    eapply extends_trans; [|apply foldl_extends].
    + eapply extends_trans; [apply Hline | apply put_extends].
    + intros s i. eapply extends_trans; [|apply put_extends].
      eapply extends_trans; [|apply put_extends].
      eapply extends_trans; [apply setw_extends | apply std_left_extends].
  - intros s row. eapply extends_trans; [|apply put_extends].
    eapply extends_trans; [apply put_extends | apply print_each_at_extends].
Qed.

Lemma header_loop_adjust {Ts} (t : VariadicTable Ts) (cols : list nat) : ∀ s,
  os_adjust (foldl (fun stream i =>
                      stream <<< setw (to_int (_column_sizes t !!! i)) <<< std_left
                             <<< put (string_fill (half t i) space ++ _headers t !!! i)
                             <<< put bar)
                   s cols)
  = match cols with [] => os_adjust s | _ :: _ => adjust_left end.
Proof.
  induction cols as [|i cols IH]; intros s; simpl; [done|].
  rewrite IH. by destruct cols.
Qed.

Lemma print_each_at_adjust Ts column_sizes : ∀ I (t : DataTuple Ts) s,
  os_adjust (print_each_at Ts column_sizes I t s)
  = match last Ts with
    | None => os_adjust s
    | Some T => if is_arithmetic T then adjust_right else adjust_left
    end.
Proof.
  induction Ts as [|T Ts IH]; intros I t s; simpl; [done|].
  rewrite IH. destruct Ts as [|T' Ts];
    [|rewrite last_cons_cons; destruct (last (T' :: Ts)) eqn:Hlast;
      [done | by apply last_None in Hlast]].
  simpl. unfold justify. by destruct (is_arithmetic T).
Qed.

Lemma rows_loop_adjust {Ts} column_sizes (rows : list (DataTuple Ts)) : ∀ s,
  os_adjust (foldl (fun stream row =>
                      stream <<< put bar <<< print_each column_sizes row
                             <<< put newline)
                   s rows)
  = match last Ts, rows with
    | Some T, _ :: _ => if is_arithmetic T then adjust_right else adjust_left
    | _, _ => os_adjust s
    end.
Proof.
  induction rows as [|row rows IH]; intros s; simpl.
  - by destruct (last Ts).
  - rewrite IH. simpl. unfold print_each. rewrite print_each_at_adjust.
    destruct (last Ts); destruct rows; done.
Qed.

Lemma print_headers_adjust {Ts} (t : VariadicTable Ts) s :
  os_adjust (print_headers t s)
  = match columns (_num_columns t) with [] => os_adjust s | _ :: _ => adjust_left end.
Proof. apply header_loop_adjust. Qed.

Lemma print_rows_adjust {Ts} (t : VariadicTable Ts) s :
  os_adjust (print_rows t s)
  = match last Ts, _data t with
    | Some T, _ :: _ => if is_arithmetic T then adjust_right else adjust_left
    | _, _ => os_adjust s
    end.
Proof. apply rows_loop_adjust. Qed.

(** X6: [print] does not restore the stream's adjustment flag: for a table
    with at least one column the stream is left under [std::left] when no
    row is stored, and under the justification of the last column
    otherwise. *)
Theorem print_leaves_adjustment {Ts} (t : VariadicTable Ts) (stream : ostream) :
  table_inv t →
  os_adjust (print t stream).2 = adjust_after Ts (_data t) (os_adjust stream).
Proof.
  intros [Hn Hh]. unfold print, adjust_after. cbv zeta. simpl snd.
  cbn [put os_adjust]. rewrite print_rows_adjust. cbn [put os_adjust].
  rewrite print_headers_adjust. cbn [put os_adjust].
  change (_num_columns (size_columns t)) with (_num_columns t).
  change (_data (size_columns t)) with (_data t).
  unfold columns. rewrite Hn, Nat2Z.id.
  destruct Ts as [|T Ts _] using rev_ind.
  - simpl. by destruct (_data t).
  - rewrite last_snoc, length_app. simpl length.
    rewrite Nat.add_1_r. simpl seq. by destruct (_data t).
Qed.

(** * Further properties of the lines *)

Lemma sum_succ_cons (w : Z) (ws : list Z) :
  foldr Z.add 0 ((fun w => w + 1) <$> w :: ws)
  = (w + 1) + foldr Z.add 0 ((fun w => w + 1) <$> ws).
Proof. done. Qed.

Lemma sum_zip_max (cs : list Z) : ∀ sizes : list Z,
  length cs = length sizes →
  foldr Z.add 0 ((fun w => w + 1) <$> cs)
    <= foldr Z.add 0 ((fun w => w + 1) <$> zip_with Z.max cs sizes)
  ∧ (foldr Z.add 0 ((fun w => w + 1) <$> zip_with Z.max cs sizes)
     = foldr Z.add 0 ((fun w => w + 1) <$> cs)
     ↔ Forall2 (fun w n => n <= w) cs sizes).
Proof.
  induction cs as [|c cs IH]; intros [|n sizes] Hlen; try discriminate Hlen.
  - split; [done|]. split; [constructor | done].
  - change (zip_with Z.max (c :: cs) (n :: sizes))
      with (Z.max c n :: zip_with Z.max cs sizes).
    rewrite !sum_succ_cons.
    destruct (IH sizes ltac:(simpl in Hlen; lia)) as [Hle Hiff]. split; [lia|]. split.
    + intros Heq. constructor; [lia|]. apply Hiff. lia.
    + intros Hall. apply Forall2_cons in Hall as [Hn Hall].
      apply Hiff in Hall. lia.
Qed.

(** X7: a data line is never narrower than the rules and the header line,
    and it is exactly as wide as they are if and only if no value's text is
    longer than the width of its column (widths representable as [int]). *)
Theorem data_line_width_bounds {Ts} (t : VariadicTable Ts) (stream : ostream)
    (fill : ascii) (row : DataTuple Ts) :
  table_inv t → sizes_within INT_MAX t →
  line_width (_column_sizes (print t stream).1)
    <= size (data_line (print t stream).1 fill row)
  ∧ (size (data_line (print t stream).1 fill row)
     = line_width (_column_sizes (print t stream).1)
     ↔ Forall2 (fun w text => size text <= w)
               (_column_sizes (print t stream).1) (texts Ts row)).
Proof.
  intros Hinv Hfit. rewrite print_table.
  rewrite data_line_cells, size_line.
  rewrite row_cell_sizes
    by (by apply length_size_columns || by apply widths_within_int).
  unfold line_width.
  destruct (sum_zip_max (_column_sizes (size_columns t)) (size <$> texts Ts row))
    as [Hle Hiff].
  { by rewrite length_fmap, length_texts, length_size_columns. }
  split; [lia|]. rewrite Forall2_fmap_r in Hiff. rewrite <- Hiff. lia.
Qed.

Lemma cell_sizes_unmeasured Ts st : ∀ (row : DataTuple Ts) i T,
  Ts !! i = Some T → size_member T = None →
  cell_sizes Ts st row !! i = Some (to_uint (to_size_t st)).
Proof.
  induction Ts as [|T0 Ts IH]; intros row i T HT Hnone; [done|].
  destruct i as [|i]; simpl in *.
  - injection HT as ->. unfold sizeOfData. by rewrite Hnone.
  - by eapply IH.
Qed.

Lemma foldl_max_const {A} (rows : list A) (c : Z) : ∀ x,
  foldl Z.max x ((fun _ => c) <$> rows)
  = match rows with [] => x | _ :: _ => Z.max x c end.
Proof.
  induction rows as [|r rows IH]; intros x; [done|].
  rewrite fmap_cons. simpl foldl. rewrite IH. destruct rows; lia.
Qed.

(** X8: a column whose type has no [size()] member gets a width that does
    not depend on the values stored in it: the header length while the
    table has no rows, the larger of header length and fallback width once
    it has one (both representable as [unsigned int]). *)
Theorem unmeasured_column_width {Ts} (t : VariadicTable Ts) (stream : ostream)
    (i : nat) (T : ColumnType) :
  table_inv t → Ts !! i = Some T → size_member T = None →
  size (_headers t !!! i) <= UINT_MAX →
  0 <= _static_column_size t <= UINT_MAX →
  _column_sizes (print t stream).1 !! i
  = Some (match _data t with
          | [] => size (_headers t !!! i)
          | _ :: _ => Z.max (size (_headers t !!! i)) (_static_column_size t)
          end).
Proof.
  intros Hinv HT Hnone Hh Hst. rewrite print_table.
  rewrite size_columns_lookup by (done || by eapply lookup_lt_Some).
  rewrite (list_fmap_ext _ (fun _ => _static_column_size t)).
  - rewrite foldl_max_const.
    rewrite to_uint_small by (pose proof (size_nonneg (_headers t !!! i)); lia).
    done.
  - intros k row _. apply list_lookup_total_correct.
    rewrite (cell_sizes_unmeasured _ _ _ _ _ HT Hnone).
    by rewrite to_size_t_small, to_uint_small.
Qed.

Lemma total_width_loop_mod (cs : list Z) : ∀ acc,
  foldl (fun total_width col_size => to_uint (total_width + col_size))
        (to_uint acc) cs
  = to_uint (acc + foldr Z.add 0 cs).
Proof.
  induction cs as [|c cs IH]; intros acc; simpl.
  - by rewrite Z.add_0_r.
  - rewrite IH. unfold to_uint.
    rewrite <- Z.add_assoc, Z.add_mod_idemp_l by done. done.
Qed.

(** X9: the horizontal rule is as many dashes long as the number of columns
    plus one plus the sum of the widths, reduced modulo 2^32: [total_width]
    is accumulated in an [unsigned int], so it wraps and never exceeds
    [UINT_MAX]. *)
Theorem rule_length_wraps {Ts} (t : VariadicTable Ts) (stream : ostream) :
  table_inv t →
  size (rule (print t stream).1) = to_uint (line_width (_column_sizes (print t stream).1))
  ∧ size (rule (print t stream).1) <= UINT_MAX.
Proof.
  intros Hinv. rewrite print_table.
  assert (size (rule (size_columns t))
          = to_uint (line_width (_column_sizes (size_columns t)))) as Heq.
  { unfold rule, total_width. rewrite total_width_loop_mod.
    rewrite size_string_fill by apply to_uint_range.
    rewrite line_width_sum, length_size_columns by done.
    change (_num_columns (size_columns t)) with (_num_columns t).
    destruct Hinv as [-> _]. done. }
  split; [exact Heq|]. rewrite Heq. apply to_uint_range.
Qed.

Lemma lines_depend_on_layout {Ts} (t u : VariadicTable Ts) :
  _headers u = _headers t → _num_columns u = _num_columns t →
  _column_sizes u = _column_sizes t →
  rule u = rule t
  ∧ (∀ fill, header_line u fill = header_line t fill)
  ∧ (∀ fill row, data_line u fill row = data_line t fill row).
Proof.
  destruct t, u. simpl. intros -> -> ->. done.
Qed.

(** X10: adding a row whose sizes do not exceed the current widths leaves
    the rules, the header line and the lines of the rows already stored as
    they were: the new output is the old one with the new row's line put in
    before the closing rule. *)
Theorem fitting_row_keeps_lines {Ts} (t : VariadicTable Ts) (row : DataTuple Ts)
    (stream : ostream) :
  table_inv t → os_width stream = 0 →
  Forall2 (fun w n => n <= w) (_column_sizes (print t stream).1)
          (cell_sizes Ts (_static_column_size t) row) →
  ∃ head,
    written stream (print t stream).2
    = head ++ rule (print t stream).1 ++ newline
    ∧ written stream (print (addRow row t) stream).2
      = head ++ data_line (print t stream).1 (os_fill stream) row ++ newline
             ++ rule (print t stream).1 ++ newline.
Proof.
  intros Hinv Hw Hfits. rewrite print_table in *.
  assert (_column_sizes (size_columns (addRow row t)) = _column_sizes (size_columns t))
    as Hsame.
  { apply list_eq. intros i.
    destruct (decide (i < length Ts)%nat) as [Hi|Hi].
    - rewrite (size_columns_lookup (addRow row t)), (size_columns_lookup t) by done.
      simpl. rewrite fmap_app, foldl_app. simpl. f_equal.
      pose proof (size_columns_lookup t i Hinv Hi) as Hl.
      destruct (lookup_lt_is_Some_2 (cell_sizes Ts (_static_column_size t) row) i)
        as [c Hc]; [by rewrite length_cell_sizes|].
      rewrite (list_lookup_total_correct _ _ _ Hc).
      pose proof (Forall2_lookup_lr _ _ _ _ _ _ Hfits Hl Hc). simpl in *. lia.
    - rewrite !lookup_ge_None_2;
        [done | rewrite length_size_columns by done; lia ..]. }
  destruct (lines_depend_on_layout (size_columns t) (size_columns (addRow row t))
              eq_refl eq_refl Hsame) as (Hrule & Hheader & Hline).
  exists (rule (size_columns t) ++ newline
          ++ header_line (size_columns t) (os_fill stream) ++ newline
          ++ rule (size_columns t) ++ newline
          ++ concat ((fun r => data_line (size_columns t) (os_fill stream) r ++ newline)
                       <$> _data t)).
  rewrite (emits_written _ _ _ (print_emits t stream Hw)).
  rewrite (emits_written _ _ _ (print_emits (addRow row t) stream Hw)).
  rewrite Hrule, Hheader. split.
  - by rewrite <- !app_assoc.
  - simpl _data. rewrite fmap_app, concat_app. simpl.
    rewrite (list_fmap_ext _ (fun r => data_line (size_columns t) (os_fill stream) r
                                          ++ newline) (_data t))
      by (intros; by rewrite Hline).
    rewrite Hline, app_nil_r.
    repeat (progress (rewrite <- ?app_assoc; simpl)). done.
Qed.

(** * The further properties at concrete tables *)

(** [size_each] on the row [fred] and a vector one entry longer than the
    tuple. *)
Lemma size_each_overwrites_prefix_witness :
  length [7; 7; 7] = length person_columns
  ∧ (size_each 0 fred ([7; 7; 7] ++ [8]) = cell_sizes person_columns 0 fred ++ [8]
     ∧ length (size_each 0 fred ([7; 7; 7] ++ [8])) = length ([7; 7; 7] ++ [8])
     ∧ Forall (fun n => 0 <= n <= UINT_MAX) (cell_sizes person_columns 0 fred)).
Proof.
  split; [reflexivity|].
  exact (size_each_overwrites_prefix 0 fred [7; 7; 7] [8] eq_refl).
Defined.

(** [alexander] added to the table that holds [fred]. *)
Lemma widths_after_addRow_witness :
  table_inv (addRow fred no_people)
  ∧ (_column_sizes (print (addRow alexander (addRow fred no_people)) fresh_stream).1
     = zip_with Z.max (_column_sizes (print (addRow fred no_people) fresh_stream).1)
                (cell_sizes person_columns (_static_column_size (addRow fred no_people))
                            alexander)
     ∧ ∀ i w, _column_sizes (print (addRow fred no_people) fresh_stream).1 !! i = Some w →
         ∃ w', _column_sizes (print (addRow alexander (addRow fred no_people))
                                    fresh_stream).1 !! i = Some w'
               ∧ w <= w').
Proof.
  assert (table_inv (addRow fred no_people)) as Hinv by (split; reflexivity).
  split; [assumption|].
  exact (widths_after_addRow (addRow fred no_people) alexander fresh_stream Hinv).
Defined.

(** The two rows added in either order. *)
Lemma widths_ignore_row_order_witness :
  table_inv no_people ∧ [fred; alexander] ≡ₚ [alexander; fred]
  ∧ _column_sizes (print (foldl (fun t row => addRow row t) no_people [fred; alexander])
                         fresh_stream).1
    = _column_sizes (print (foldl (fun t row => addRow row t) no_people [alexander; fred])
                           fresh_stream).1.
Proof.
  assert (table_inv no_people) as Hinv by (split; reflexivity).
  assert ([fred; alexander] ≡ₚ [alexander; fred]) as Hperm by apply perm_swap.
  split; [assumption|]. split; [assumption|].
  exact (widths_ignore_row_order no_people [fred; alexander] [alexander; fred]
           fresh_stream Hinv Hperm).
Defined.

(** The table [people], built by the constructor and two [addRow] calls. *)
Lemma reachable_tables_index_in_range_witness :
  reachable people
  ∧ (table_inv people
     ∧ length (_column_sizes (print people fresh_stream).1)
       = Z.to_nat (_num_columns people)
     ∧ ∀ i, i ∈ columns (_num_columns people) →
         is_Some (_headers people !! i)
         ∧ ∃ w, _column_sizes (print people fresh_stream).1 !! i = Some w
                ∧ to_uint (size (_headers people !!! i)) <= w <= UINT_MAX).
Proof.
  assert (reachable people) as Hreach.
  { do 2 apply reachable_addRow.
    apply (reachable_ctor person_headers 0); [vm_compute; discriminate | reflexivity]. }
  split; [assumption|].
  exact (reachable_tables_index_in_range people fresh_stream Hreach).
Defined.

(** The flag left by printing [people]: the last column is a
    [const char *]. *)
Lemma print_leaves_adjustment_witness :
  table_inv people
  ∧ os_adjust (print people fresh_stream).2
    = adjust_after person_columns (_data people) (os_adjust fresh_stream).
Proof.
  assert (table_inv people) as Hinv by (split; reflexivity).
  split; [assumption|].
  exact (print_leaves_adjustment people fresh_stream Hinv).
Defined.

(** The line of [alexander] in [people]. *)
Lemma data_line_width_bounds_witness :
  table_inv people ∧ sizes_within INT_MAX people
  ∧ (line_width (_column_sizes (print people fresh_stream).1)
       <= size (data_line (print people fresh_stream).1 space alexander)
     ∧ (size (data_line (print people fresh_stream).1 space alexander)
        = line_width (_column_sizes (print people fresh_stream).1)
        ↔ Forall2 (fun w text => size text <= w)
                  (_column_sizes (print people fresh_stream).1)
                  (texts person_columns alexander))).
Proof.
  assert (table_inv people) as Hinv by (split; reflexivity).
  assert (sizes_within INT_MAX people) as Hfit by in_range.
  split; [assumption|]. split; [assumption|].
  exact (data_line_width_bounds people fresh_stream space alexander Hinv Hfit).
Defined.

(** The [int] column of [people]. *)
Lemma unmeasured_column_width_witness :
  table_inv people ∧ person_columns !! 1%nat = Some int_col
  ∧ size_member int_col = None
  ∧ size (_headers people !!! 1%nat) <= UINT_MAX
  ∧ 0 <= _static_column_size people <= UINT_MAX
  ∧ _column_sizes (print people fresh_stream).1 !! 1%nat
    = Some (match _data people with
            | [] => size (_headers people !!! 1%nat)
            | _ :: _ => Z.max (size (_headers people !!! 1%nat))
                              (_static_column_size people)
            end).
Proof.
  assert (table_inv people) as Hinv by (split; reflexivity).
  assert (size (_headers people !!! 1%nat) <= UINT_MAX) as Hh
    by (vm_compute; discriminate).
  assert (0 <= _static_column_size people <= UINT_MAX) as Hst
    by (split; vm_compute; discriminate).
  split; [assumption|]. split; [reflexivity|]. split; [reflexivity|].
  split; [assumption|]. split; [assumption|].
  exact (unmeasured_column_width people fresh_stream 1 int_col Hinv eq_refl eq_refl
           Hh Hst).
Defined.

(** The rule of [people]. *)
Lemma rule_length_wraps_witness :
  table_inv people
  ∧ (size (rule (print people fresh_stream).1)
     = to_uint (line_width (_column_sizes (print people fresh_stream).1))
     ∧ size (rule (print people fresh_stream).1) <= UINT_MAX).
Proof.
  assert (table_inv people) as Hinv by (split; reflexivity).
  split; [assumption|].
  exact (rule_length_wraps people fresh_stream Hinv).
Defined.

(** [fred] added once more to [people]. *)
Lemma fitting_row_keeps_lines_witness :
  table_inv people ∧ os_width fresh_stream = 0
  ∧ Forall2 (fun w n => n <= w) (_column_sizes (print people fresh_stream).1)
            (cell_sizes person_columns (_static_column_size people) fred)
  ∧ ∃ head,
      written fresh_stream (print people fresh_stream).2
      = head ++ rule (print people fresh_stream).1 ++ newline
      ∧ written fresh_stream (print (addRow fred people) fresh_stream).2
        = head ++ data_line (print people fresh_stream).1 (os_fill fresh_stream) fred
               ++ newline ++ rule (print people fresh_stream).1 ++ newline.
Proof.
  assert (table_inv people) as Hinv by (split; reflexivity).
  assert (Forall2 (fun w n => n <= w) (_column_sizes (print people fresh_stream).1)
                  (cell_sizes person_columns (_static_column_size people) fred)) as Hfits
    by (vm_compute; repeat constructor; vm_compute; discriminate).
  split; [assumption|]. split; [reflexivity|]. split; [assumption|].
  exact (fitting_row_keeps_lines people fred fresh_stream Hinv eq_refl Hfits).
Defined.
